(** * PredictionMarkets: the pari-mutuel settlement contract

    A shallow embedding of the Solidity contract [PredictionMarkets]
    (pragma ^0.8.24) and the properties of its ledger: exactly-once
    resolution and claim, the payout and fee arithmetic, and the pool
    accounting.

    Conventions of the embedding.
    - [uint256] and [uint64] values are [N]; Solidity 0.8 arithmetic is
      checked, so [+], [*] and [-] revert with a panic when the result
      leaves the 256-bit range, and [/] reverts on a zero divisor.
    - a [mapping] is a finite map read with the zero value as default;
      the nested mappings are keyed by the pair (market id, account).
    - a contract function is a computation in the monad [M], which
      threads the contract storage and either returns or reverts.
      A revert carries the storage reached at the point of failure; the
      transaction boundary ([transact]) discards it, as the EVM does. *)

From Stdlib Require Import NArith String List Lia Bool.
From Stdlib Require Import Ascii Sorted.
From Stdlib Require Hexadecimal HexadecimalString HexadecimalN.
From Stdlib Require HexadecimalFacts HexadecimalPos.
From stdpp Require Import gmap strings list fin_maps.

Local Open Scope N_scope.

(** ** Values *)

Definition address := N.

Definition UINT256_MAX : N := 2 ^ 256 - 1.

(** The custom errors of the contract, followed by the failures of the
    inherited modifiers, of the token library and of checked arithmetic. *)
Inductive Error : Type :=
| MarketDoesNotExist
| MarketEnded
| MarketNotEnded
| MarketAlreadyResolved
| MarketNotResolved
| DeadlineMustBeFuture
| BetTooSmall
| BetTooLarge
| InvalidOutcome
| NoWinnings
| AlreadyClaimed
| Unauthorized
| ReentrantCall
| TransferFailed
| RequireFailed (reason : string)
| PanicOverflow
| PanicDivisionByZero.

Inductive Event : Type :=
| MarketCreated (marketId : N) (q : string) (dl : N) (creator : address)
| BetPlaced (marketId : N) (user : address) (isYes : bool) (amount : N)
| MarketResolved (marketId : N) (outcome : bool)
| Claimed (marketId : N) (user : address) (amount : N)
| FeesWithdrawn (to : address) (amount : N)
| FeeUpdated (oldFee newFee : N).

Record Market : Type := mkMarket {
  question : string;
  deadline : N;
  resolved : bool;
  outcomeYes : bool;
  yesPool : N;
  noPool : N
}.

(** The value a [mapping(uint256 => Market)] holds at a key never written. *)
Definition emptyMarket : Market := mkMarket EmptyString 0 false false 0 0.

Definition MAX_FEE_BPS : N := 1000.
Definition BPS_DENOMINATOR : N := 10000.

(** Transaction context: [msg.sender] and [block.timestamp]. *)
Record Env : Type := mkEnv {
  msg_sender : address;
  block_timestamp : N
}.

(** Modelled from the spec: the ERC20 token behind [IERC20 token] and the
    [SafeERC20] wrappers are not part of the sources. A token is any
    ledger with the two calls the contract makes, each of which either
    yields the new token ledger or fails; the first argument is the
    calling contract. The token never calls back into the contract. *)
Class IERC20 (T : Type) : Type := {
  safeTransferFrom : address -> address -> address -> N -> T -> option T;
  safeTransfer : address -> address -> N -> T -> option T
}.

Section Contract.

Context {T : Type} `{Tok : IERC20 T}.

(** ** Storage *)

(** The state variables of the contract, with the token ledger it talks
    to, the contract's own address, the owner kept by [Ownable], the flag
    kept by [ReentrancyGuard] and the log of emitted events. *)
Record World : Type := mkWorld {
  token : T;
  self : address;
  owner : address;
  entered : bool;
  marketCount : N;
  minBetSize : N;
  maxBetSize : N;
  platformFeeBps : N;
  accumulatedFees : N;
  markets : gmap N Market;
  yesStakes : gmap (N * address) N;
  noStakes : gmap (N * address) N;
  claimed : gmap (N * address) bool;
  events : list Event
}.

Definition set_token (v : T) (w : World) : World :=
  mkWorld v (self w) (owner w) (entered w) (marketCount w) (minBetSize w)
    (maxBetSize w) (platformFeeBps w) (accumulatedFees w) (markets w)
    (yesStakes w) (noStakes w) (claimed w) (events w).

Definition set_entered (v : bool) (w : World) : World :=
  mkWorld (token w) (self w) (owner w) v (marketCount w) (minBetSize w)
    (maxBetSize w) (platformFeeBps w) (accumulatedFees w) (markets w)
    (yesStakes w) (noStakes w) (claimed w) (events w).

Definition set_marketCount (v : N) (w : World) : World :=
  mkWorld (token w) (self w) (owner w) (entered w) v (minBetSize w)
    (maxBetSize w) (platformFeeBps w) (accumulatedFees w) (markets w)
    (yesStakes w) (noStakes w) (claimed w) (events w).

Definition set_betLimits (lo hi : N) (w : World) : World :=
  mkWorld (token w) (self w) (owner w) (entered w) (marketCount w) lo
    hi (platformFeeBps w) (accumulatedFees w) (markets w)
    (yesStakes w) (noStakes w) (claimed w) (events w).

Definition set_platformFeeBps (v : N) (w : World) : World :=
  mkWorld (token w) (self w) (owner w) (entered w) (marketCount w)
    (minBetSize w) (maxBetSize w) v (accumulatedFees w) (markets w)
    (yesStakes w) (noStakes w) (claimed w) (events w).

Definition set_accumulatedFees (v : N) (w : World) : World :=
  mkWorld (token w) (self w) (owner w) (entered w) (marketCount w)
    (minBetSize w) (maxBetSize w) (platformFeeBps w) v (markets w)
    (yesStakes w) (noStakes w) (claimed w) (events w).

Definition set_markets (v : gmap N Market) (w : World) : World :=
  mkWorld (token w) (self w) (owner w) (entered w) (marketCount w)
    (minBetSize w) (maxBetSize w) (platformFeeBps w) (accumulatedFees w) v
    (yesStakes w) (noStakes w) (claimed w) (events w).

Definition set_yesStakes (v : gmap (N * address) N) (w : World) : World :=
  mkWorld (token w) (self w) (owner w) (entered w) (marketCount w)
    (minBetSize w) (maxBetSize w) (platformFeeBps w) (accumulatedFees w)
    (markets w) v (noStakes w) (claimed w) (events w).

Definition set_noStakes (v : gmap (N * address) N) (w : World) : World :=
  mkWorld (token w) (self w) (owner w) (entered w) (marketCount w)
    (minBetSize w) (maxBetSize w) (platformFeeBps w) (accumulatedFees w)
    (markets w) (yesStakes w) v (claimed w) (events w).

Definition set_claimed (v : gmap (N * address) bool) (w : World) : World :=
  mkWorld (token w) (self w) (owner w) (entered w) (marketCount w)
    (minBetSize w) (maxBetSize w) (platformFeeBps w) (accumulatedFees w)
    (markets w) (yesStakes w) (noStakes w) v (events w).

Definition set_events (v : list Event) (w : World) : World :=
  mkWorld (token w) (self w) (owner w) (entered w) (marketCount w)
    (minBetSize w) (maxBetSize w) (platformFeeBps w) (accumulatedFees w)
    (markets w) (yesStakes w) (noStakes w) (claimed w) v.

(** Reads of the mappings: [markets[id]], [yesStakes[id][user]],
    [noStakes[id][user]] and [claimed[id][user]]. *)
Definition market_at (w : World) (marketId : N) : Market :=
  default emptyMarket (markets w !! marketId).

Definition yesStake_at (w : World) (marketId : N) (user : address) : N :=
  default 0 (yesStakes w !! (marketId, user)).

Definition noStake_at (w : World) (marketId : N) (user : address) : N :=
  default 0 (noStakes w !! (marketId, user)).

Definition claimed_at (w : World) (marketId : N) (user : address) : bool :=
  default false (claimed w !! (marketId, user)).

(** Writes through the storage pointer [Market storage market]. *)
Definition with_resolution (outcome : bool) (m : Market) : Market :=
  mkMarket (question m) (deadline m) true outcome (yesPool m) (noPool m).

Definition with_yesPool (v : N) (m : Market) : Market :=
  mkMarket (question m) (deadline m) (resolved m) (outcomeYes m) v (noPool m).

Definition with_noPool (v : N) (m : Market) : Market :=
  mkMarket (question m) (deadline m) (resolved m) (outcomeYes m) (yesPool m) v.

Definition store_market (marketId : N) (m : Market) (w : World) : World :=
  set_markets (<[marketId := m]> (markets w)) w.

(** ** The execution monad *)

Inductive Res (A : Type) : Type :=
| Ok (a : A) (w : World)
| Revert (e : Error) (w : World).

Arguments Ok {A} a w.
Arguments Revert {A} e w.

Definition M (A : Type) : Type := World -> Res A.

Definition ret {A : Type} (a : A) : M A := fun w => Ok a w.

Definition bind {A B : Type} (m : M A) (f : A -> M B) : M B :=
  fun w =>
    match m w with
    | Ok a w' => f a w'
    | Revert e w' => Revert e w'
    end.

Definition revert {A : Type} (e : Error) : M A := fun w => Revert e w.

Definition gets {A : Type} (f : World -> A) : M A := fun w => Ok (f w) w.

Definition modify (f : World -> World) : M unit := fun w => Ok tt (f w).

End Contract.

Arguments World T : clear implicits.
Arguments M T A : clear implicits.
Arguments Res T A : clear implicits.
Arguments Ok {T A} a w.
Arguments Revert {T A} e w.
Arguments mkWorld {T}.

Declare Scope evm_scope.
Delimit Scope evm_scope with evm.

Notation "x <-- m ; k" := (bind m (fun x => k))
  (at level 20, m at level 100, k at level 200, only parsing) : evm_scope.
Notation "m ;;; k" := (bind m (fun _ : unit => k))
  (at level 100, k at level 200, only parsing, right associativity) : evm_scope.

Local Open Scope evm_scope.

Section Operations.

Context {T : Type} `{Tok : IERC20 T}.

#[local] Abbreviation World := (World T).
#[local] Abbreviation M := (M T).

(** ** Statements *)

(** [if (c) revert E();] *)
Definition revert_if (c : bool) (e : Error) : M unit :=
  if c then revert e else ret tt.

(** [require(c, reason);] *)
Definition require (c : bool) (reason : string) : M unit :=
  if c then ret tt else revert (RequireFailed reason).

Definition emit (ev : Event) : M unit :=
  modify (fun w => set_events (events w ++ [ev]) w).

(** Checked arithmetic of Solidity 0.8 on [uint256]. *)
Definition checked_add (a b : N) : M N :=
  if a + b <=? UINT256_MAX then ret (a + b) else revert PanicOverflow.

Definition checked_mul (a b : N) : M N :=
  if a * b <=? UINT256_MAX then ret (a * b) else revert PanicOverflow.

Definition checked_sub (a b : N) : M N :=
  if b <=? a then ret (a - b) else revert PanicOverflow.

Definition checked_div (a b : N) : M N :=
  if b =? 0 then revert PanicDivisionByZero else ret (a / b).

(** [token.safeTransferFrom(from, to, value)] and
    [token.safeTransfer(to, value)], called by this contract. *)
Definition token_safeTransferFrom (from to : address) (value : N) : M unit :=
  fun w =>
    match safeTransferFrom (self w) from to value (token w) with
    | Some t' => Ok tt (set_token t' w)
    | None => Revert TransferFailed w
    end.

Definition token_safeTransfer (to : address) (value : N) : M unit :=
  fun w =>
    match safeTransfer (self w) to value (token w) with
    | Some t' => Ok tt (set_token t' w)
    | None => Revert TransferFailed w
    end.

(** ** Modifiers *)

(** Modelled from the spec: [Ownable.onlyOwner] is inherited from a library
    outside the sources. The caller's identity is checked first and the
    call fails [Unauthorized] when it is not the owner. *)
Definition onlyOwner {A : Type} (env : Env) (body : M A) : M A :=
  o <-- gets owner;
  revert_if (negb (msg_sender env =? o)) Unauthorized;;;
  body.

(** Modelled from the spec: [ReentrancyGuard.nonReentrant] is inherited
    from a library outside the sources. An in-progress flag is set before
    and cleared after the body; a call made while it is set fails at
    once. *)
Definition nonReentrant {A : Type} (body : M A) : M A :=
  busy <-- gets entered;
  revert_if busy ReentrantCall;;;
  modify (set_entered true);;;
  a <-- body;
  modify (set_entered false);;;
  ret a.

(** ** Constructor *)

Definition constructor (deployer this : address) (tok : T)
    (_minBetSize _maxBetSize : N) : World :=
  {| token := tok;
     self := this;
     owner := deployer;
     entered := false;
     marketCount := 0;
     minBetSize := _minBetSize;
     maxBetSize := _maxBetSize;
     platformFeeBps := 200;
     accumulatedFees := 0;
     markets := ∅;
     yesStakes := ∅;
     noStakes := ∅;
     claimed := ∅;
     events := [] |}.

(** ** View functions *)

Definition getMarket (marketId : N) : M (string * N * bool * bool * N * N) :=
  m <-- gets (fun w => market_at w marketId);
  ret (question m, deadline m, resolved m, outcomeYes m, yesPool m, noPool m).

Definition getOdds (marketId : N) : M (N * N) :=
  market <-- gets (fun w => market_at w marketId);
  total <-- checked_add (yesPool market) (noPool market);
  if total =? 0 then ret (50, 50)
  else
    scaled <-- checked_mul (yesPool market) 100;
    yesPercent <-- checked_div scaled total;
    noPercent <-- checked_sub 100 yesPercent;
    ret (yesPercent, noPercent).

Definition getUserStakes (marketId : N) (user : address) : M (N * N) :=
  yesStake <-- gets (fun w => yesStake_at w marketId user);
  noStake <-- gets (fun w => noStake_at w marketId user);
  ret (yesStake, noStake).

Definition calculatePayout (marketId : N) (user : address) : M N :=
  market <-- gets (fun w => market_at w marketId);
  if negb (resolved market) then ret 0
  else
    totalPool <-- checked_add (yesPool market) (noPool market);
    if totalPool =? 0 then ret 0
    else if outcomeYes market then
      userStake <-- gets (fun w => yesStake_at w marketId user);
      if (userStake =? 0) || (yesPool market =? 0) then ret 0
      else
        scaled <-- checked_mul userStake totalPool;
        checked_div scaled (yesPool market)
    else
      userStake <-- gets (fun w => noStake_at w marketId user);
      if (userStake =? 0) || (noPool market =? 0) then ret 0
      else
        scaled <-- checked_mul userStake totalPool;
        checked_div scaled (noPool market).

Definition calculatePayoutAfterFee (marketId : N) (user : address) : M N :=
  payout <-- calculatePayout marketId user;
  if payout =? 0 then ret 0
  else
    bps <-- gets platformFeeBps;
    scaled <-- checked_mul payout bps;
    fee <-- checked_div scaled BPS_DENOMINATOR;
    checked_sub payout fee.

(** ** State-changing functions *)

Definition createMarket (env : Env) (q : string) (dl : N) : M N :=
  revert_if (dl <=? block_timestamp env) DeadlineMustBeFuture;;;
  count <-- gets marketCount;
  marketId <-- checked_add count 1;
  modify (set_marketCount marketId);;;
  modify (store_market marketId (mkMarket q dl false false 0 0));;;
  emit (MarketCreated marketId q dl (msg_sender env));;;
  ret marketId.

Definition _placeBet (env : Env) (marketId amount : N) (isYes : bool) : M unit :=
  market <-- gets (fun w => market_at w marketId);
  revert_if (deadline market =? 0) MarketDoesNotExist;;;
  revert_if (resolved market) MarketAlreadyResolved;;;
  revert_if (deadline market <=? block_timestamp env) MarketEnded;;;
  lo <-- gets minBetSize;
  revert_if (amount <? lo) BetTooSmall;;;
  hi <-- gets maxBetSize;
  revert_if ((0 <? hi) && (hi <? amount)) BetTooLarge;;;
  this <-- gets self;
  token_safeTransferFrom (msg_sender env) this amount;;;
  (if isYes then
     market <-- gets (fun w => market_at w marketId);
     pool <-- checked_add (yesPool market) amount;
     modify (store_market marketId (with_yesPool pool market));;;
     stake <-- gets (fun w => yesStake_at w marketId (msg_sender env));
     stake' <-- checked_add stake amount;
     modify (fun w => set_yesStakes
                        (<[(marketId, msg_sender env) := stake']> (yesStakes w)) w)
   else
     market <-- gets (fun w => market_at w marketId);
     pool <-- checked_add (noPool market) amount;
     modify (store_market marketId (with_noPool pool market));;;
     stake <-- gets (fun w => noStake_at w marketId (msg_sender env));
     stake' <-- checked_add stake amount;
     modify (fun w => set_noStakes
                        (<[(marketId, msg_sender env) := stake']> (noStakes w)) w));;;
  emit (BetPlaced marketId (msg_sender env) isYes amount).

Definition betYes (env : Env) (marketId amount : N) : M unit :=
  nonReentrant (_placeBet env marketId amount true).

Definition betNo (env : Env) (marketId amount : N) : M unit :=
  nonReentrant (_placeBet env marketId amount false).

Definition resolveMarket (env : Env) (marketId : N) (outcome : bool) : M unit :=
  onlyOwner env (
    market <-- gets (fun w => market_at w marketId);
    revert_if (deadline market =? 0) MarketDoesNotExist;;;
    revert_if (resolved market) MarketAlreadyResolved;;;
    revert_if (block_timestamp env <? deadline market) MarketNotEnded;;;
    modify (store_market marketId (with_resolution outcome market));;;
    emit (MarketResolved marketId outcome)).

Definition claim (env : Env) (marketId : N) : M unit :=
  nonReentrant (
    market <-- gets (fun w => market_at w marketId);
    revert_if (deadline market =? 0) MarketDoesNotExist;;;
    revert_if (negb (resolved market)) MarketNotResolved;;;
    done <-- gets (fun w => claimed_at w marketId (msg_sender env));
    revert_if done AlreadyClaimed;;;
    payout <-- calculatePayout marketId (msg_sender env);
    revert_if (payout =? 0) NoWinnings;;;
    modify (fun w => set_claimed
                       (<[(marketId, msg_sender env) := true]> (claimed w)) w);;;
    bps <-- gets platformFeeBps;
    scaled <-- checked_mul payout bps;
    fee <-- checked_div scaled BPS_DENOMINATOR;
    userPayout <-- checked_sub payout fee;
    acc <-- gets accumulatedFees;
    acc' <-- checked_add acc fee;
    modify (set_accumulatedFees acc');;;
    token_safeTransfer (msg_sender env) userPayout;;;
    emit (Claimed marketId (msg_sender env) userPayout)).

Definition withdrawFees (env : Env) (to : address) : M unit :=
  onlyOwner env (
    fees <-- gets accumulatedFees;
    revert_if (fees =? 0) NoWinnings;;;
    modify (set_accumulatedFees 0);;;
    token_safeTransfer to fees;;;
    emit (FeesWithdrawn to fees)).

Definition setFee (env : Env) (newFeeBps : N) : M unit :=
  onlyOwner env (
    require (newFeeBps <=? MAX_FEE_BPS) "Fee too high";;;
    oldFee <-- gets platformFeeBps;
    modify (set_platformFeeBps newFeeBps);;;
    emit (FeeUpdated oldFee newFeeBps)).

Definition setBetLimits (env : Env) (_minBetSize _maxBetSize : N) : M unit :=
  onlyOwner env (modify (set_betLimits _minBetSize _maxBetSize)).

(** ** Transactions *)

(** The state-changing entry points that the contract defines; [betYes]
    and [betNo] are the two cases of [PlaceBet]. *)
Inductive Op : Type :=
| CreateMarket (q : string) (dl : N)
| PlaceBet (marketId amount : N) (isYes : bool)
| ResolveMarket (marketId : N) (outcome : bool)
| Claim (marketId : N)
| WithdrawFees (to : address)
| SetFee (newFeeBps : N)
| SetBetLimits (lo hi : N).

Definition ignore {A : Type} (m : M A) : M unit := _ <-- m; ret tt.

Definition dispatch (env : Env) (op : Op) : M unit :=
  match op with
  | CreateMarket q dl => ignore (createMarket env q dl)
  | PlaceBet marketId amount true => betYes env marketId amount
  | PlaceBet marketId amount false => betNo env marketId amount
  | ResolveMarket marketId outcome => resolveMarket env marketId outcome
  | Claim marketId => claim env marketId
  | WithdrawFees to => withdrawFees env to
  | SetFee newFeeBps => setFee env newFeeBps
  | SetBetLimits lo hi => setBetLimits env lo hi
  end.

(** The outcome of a transaction as the caller sees it. *)
Inductive Outcome : Type :=
| Success
| Failed (e : Error).

(** A transaction runs a call on the current storage. When the call
    reverts, every change it made is discarded and the storage is the one
    the transaction started from. *)
Definition transact (env : Env) (op : Op) (w : World) : World * Outcome :=
  match dispatch env op w with
  | Ok _ w' => (w', Success)
  | Revert e _ => (w, Failed e)
  end.

(** A call of a view function: it reads the storage and changes nothing. *)
Definition call {A : Type} (m : M A) (w : World) : Error + A :=
  match m w with
  | Ok a _ => inr a
  | Revert e _ => inl e
  end.

Definition exec (w : World) (tx : Env * Op) : World :=
  fst (transact (fst tx) (snd tx) w).

(** The storage after a sequence of transactions, oldest first. *)
Definition run (txs : list (Env * Op)) (w : World) : World :=
  fold_left exec txs w.

(** The states the contract can be in: the one the constructor leaves,
    and any state a transaction leads to from one of them. *)
Inductive reachable : World -> Prop :=
| reachable_init deployer this tok lo hi :
    reachable (constructor deployer this tok lo hi)
| reachable_step env op w :
    reachable w -> reachable (fst (transact env op w)).

End Operations.

(** ** Notions used to state the properties *)

(** The total staked on a market, the pool of the side that won, and an
    account's stake on that side. *)
Definition totalPool (m : Market) : N := yesPool m + noPool m.

Definition winningPool (m : Market) : N :=
  if outcomeYes m then yesPool m else noPool m.

Definition sumN (l : list N) : N := fold_right N.add 0 l.

Section Ghost.

Context {T : Type} `{Tok : IERC20 T}.

#[local] Abbreviation World := (World T).

Definition winningStake (w : World) (marketId : N) (user : address) : N :=
  if outcomeYes (market_at w marketId) then yesStake_at w marketId user
  else noStake_at w marketId user.

(** A market exists when its id has been handed out by [createMarket]. *)
Definition exists_market (w : World) (marketId : N) : Prop :=
  1 <= marketId <= marketCount w.

(** The invariant of the reachable states. *)
Record wf (w : World) : Prop := mkWf {
  wf_unlocked : entered w = false;
  wf_absent : forall id, ~ exists_market w id -> markets w !! id = None;
  wf_present : forall id, exists_market w id -> deadline (market_at w id) <> 0;
  wf_pools : forall id,
    yesPool (market_at w id) <= UINT256_MAX /\
    noPool (market_at w id) <= UINT256_MAX;
  wf_claimed : forall id a,
    claimed_at w id a = true ->
    resolved (market_at w id) = true /\ winningPool (market_at w id) <> 0;
  wf_yesStakes : forall id l,
    NoDup l -> sumN (map (yesStake_at w id) l) <= yesPool (market_at w id);
  wf_noStakes : forall id l,
    NoDup l -> sumN (map (noStake_at w id) l) <= noPool (market_at w id)
}.

(** What one transaction adds to the amounts accepted by [placeBet] on a
    market: the amount of the bet when the transaction is a bet on that
    market and succeeds, nothing otherwise. *)
Definition accepted_by (marketId : N) (w : World) (tx : Env * Op) : N :=
  match snd tx, snd (transact (fst tx) (snd tx) w) with
  | PlaceBet id amount _, Success => if id =? marketId then amount else 0
  | _, _ => 0
  end.

(** The sum of all amounts accepted by [placeBet] on a market along a
    sequence of transactions started in [w]. *)
Fixpoint accepted (marketId : N) (txs : list (Env * Op)) (w : World) : N :=
  match txs with
  | [] => 0
  | tx :: rest => accepted_by marketId w tx + accepted marketId rest (exec w tx)
  end.

End Ghost.

Section Traces.

Context {T : Type} `{Tok : IERC20 T}.

#[local] Abbreviation World := (World T).

(** The number of markets a sequence of transactions started in [w]
    creates: its successful [createMarket] calls. *)
Definition creates (w : World) (tx : Env * Op) : N :=
  match snd tx, snd (transact (fst tx) (snd tx) w) with
  | CreateMarket _ _, Success => 1
  | _, _ => 0
  end.

Fixpoint created (txs : list (Env * Op)) (w : World) : N :=
  match txs with
  | [] => 0
  | tx :: rest => creates w tx + created rest (exec w tx)
  end.

(** The gross payout a transaction claims from a market: what
    [calculatePayout] computes for the caller when the transaction is a
    successful [claim] on that market, nothing otherwise. *)
Definition paid_by (marketId : N) (w : World) (tx : Env * Op) : N :=
  match snd tx, snd (transact (fst tx) (snd tx) w) with
  | Claim id, Success =>
      if id =? marketId then
        match call (calculatePayout id (msg_sender (fst tx))) w with
        | inr p => p
        | inl _ => 0
        end
      else 0
  | _, _ => 0
  end.

(** The sum of the gross payouts claimed from a market along a sequence of
    transactions started in [w]. *)
Fixpoint paid (marketId : N) (txs : list (Env * Op)) (w : World) : N :=
  match txs with
  | [] => 0
  | tx :: rest => paid_by marketId w tx + paid marketId rest (exec w tx)
  end.

(** An amount is covered by the claims made on a market when it is at most
    the sum of [floor(stake * total / winningPool)] over some accounts that
    have all claimed, each counted once. *)
Definition covered_by_claims (marketId : N) (w : World) (acc : N) : Prop :=
  exists l,
    NoDup l /\
    (forall a, a ∈ l -> claimed_at w marketId a = true) /\
    acc <= sumN (map (fun a => winningStake w marketId a
                               * totalPool (market_at w marketId)
                               / winningPool (market_at w marketId)) l).

(** What the event log records: the amounts of the [BetPlaced] events of a
    market and side, those of one account among them, and the number of
    [MarketCreated] events. *)
Definition logged_bet (marketId : N) (isYes : bool) (ev : Event) : N :=
  match ev with
  | BetPlaced id _ side amount =>
      if (id =? marketId) && Bool.eqb side isYes then amount else 0
  | _ => 0
  end.

Definition logged_stake (marketId : N) (user : address) (isYes : bool)
    (ev : Event) : N :=
  match ev with
  | BetPlaced id who side amount =>
      if (id =? marketId) && (who =? user) && Bool.eqb side isYes
      then amount else 0
  | _ => 0
  end.

Definition logged_market (ev : Event) : N :=
  match ev with
  | MarketCreated _ _ _ _ => 1
  | _ => 0
  end.

(** The ledger agrees with its event log. *)
Definition log_agrees (w : World) : Prop :=
  marketCount w = sumN (map logged_market (events w)) /\
  forall marketId user,
    yesPool (market_at w marketId)
      = sumN (map (logged_bet marketId true) (events w)) /\
    noPool (market_at w marketId)
      = sumN (map (logged_bet marketId false) (events w)) /\
    yesStake_at w marketId user
      = sumN (map (logged_stake marketId user true) (events w)) /\
    noStake_at w marketId user
      = sumN (map (logged_stake marketId user false) (events w)) /\
    (claimed_at w marketId user = true <->
     exists amount, Claimed marketId user amount ∈ events w).

End Traces.

Arguments UINT256_MAX : simpl never.

(** ** A concrete token *)

(** A plain balance sheet, used to run the contract on examples: a pull or
    a push moves [value] between two accounts when the payer holds it. *)
Module Ledger.

Definition balanceOf (t : gmap address N) (a : address) : N :=
  default 0 (t !! a).

Definition move (from to : address) (value : N) (t : gmap address N)
    : option (gmap address N) :=
  if value <=? balanceOf t from then
    let t' := <[from := balanceOf t from - value]> t in
    Some (<[to := balanceOf t' to + value]> t')
  else None.

#[export] Instance ledger_token : IERC20 (gmap address N) := {
  safeTransferFrom := fun _ from to value t => move from to value t;
  safeTransfer := fun this to value t => move this to value t
}.

End Ledger.

(** ** Example runs *)

Module Example.

Import Ledger.

(** Accounts 7 and 8 hold 1000 units each, account 9 holds 2^130. *)
Definition tok0 : gmap address N :=
  <[7 := 1000]> (<[8 := 1000]> (<[9 := 2 ^ 130]> ∅)).

(** Deployed by account 1 at address 99, with a minimum bet of 1 and no
    maximum. *)
Definition w_fresh : World (gmap address N) := constructor 1 99 tok0 1 0.

(** One market; 7 stakes 100 on yes, 8 stakes 600 on yes and 300 on no;
    the owner resolves it to yes at the deadline. *)
Definition history : list (Env * Op) :=
  [ (mkEnv 5 0, CreateMarket "q" 10);
    (mkEnv 7 1, PlaceBet 1 100 true);
    (mkEnv 8 2, PlaceBet 1 600 true);
    (mkEnv 8 3, PlaceBet 1 300 false);
    (mkEnv 1 10, ResolveMarket 1 true) ].

Definition w_resolved : World (gmap address N) := run history w_fresh.

(** The state after account 7 has claimed at time 11. *)
Definition w_claimed : World (gmap address N) :=
  fst (transact (mkEnv 7 11) (Claim 1) w_resolved).

(** The market right after its creation, and with all bets placed but
    not yet resolved. *)
Definition w_created : World (gmap address N) :=
  run [ (mkEnv 5 0, CreateMarket "q" 10) ] w_fresh.

Definition w_betted : World (gmap address N) :=
  run [ (mkEnv 5 0, CreateMarket "q" 10);
        (mkEnv 7 1, PlaceBet 1 100 true);
        (mkEnv 8 2, PlaceBet 1 600 true);
        (mkEnv 8 3, PlaceBet 1 300 false) ] w_fresh.

(** Everyone staked on no, and the market resolved to yes. *)
Definition w_lost : World (gmap address N) :=
  run [ (mkEnv 5 0, CreateMarket "q" 10);
        (mkEnv 8 3, PlaceBet 1 300 false);
        (mkEnv 1 10, ResolveMarket 1 true) ] w_fresh.

(** One stake of 2^128 on the winning side. *)
Definition w_big : World (gmap address N) :=
  run [ (mkEnv 5 0, CreateMarket "q" 10);
        (mkEnv 9 1, PlaceBet 1 (2 ^ 128) true);
        (mkEnv 1 10, ResolveMarket 1 true) ] w_fresh.

(** The state after the owner has withdrawn the fees of that claim to
    account 50. *)
Definition w_withdrawn : World (gmap address N) :=
  fst (transact (mkEnv 1 20) (WithdrawFees 50) w_claimed).

(** A token on which account 9 holds 2^251 units. Account 7 stakes 1 on
    yes and account 9 stakes 2^250 on no; the market resolves to yes, so
    account 7 is owed the whole pool of 2^250 + 1, and 200 times that does
    not fit in a [uint256]. *)
Definition tok_rich : gmap address N :=
  <[7 := 1000]> (<[9 := 2 ^ 251]> ∅).

Definition w_stuck : World (gmap address N) :=
  run [ (mkEnv 5 0, CreateMarket "q" 10);
        (mkEnv 7 1, PlaceBet 1 1 true);
        (mkEnv 9 2, PlaceBet 1 (2 ^ 250) false);
        (mkEnv 1 10, ResolveMarket 1 true) ]
      (constructor 1 99 tok_rich 1 0).

(** The storage at the point where account 7's [claim] stops on
    [w_stuck]: the lock is taken and the claimed flag is set. *)
Definition w_stuck_partial : World (gmap address N) :=
  set_claimed (<[(1, 7) := true]> (claimed w_stuck))
    (set_entered true w_stuck).

End Example.

(** ** The consumer of the contract *)

(** The web client reads the markets through raw [eth_call] requests. Its
    two pure parts are embedded here: the call data of [getMarket] and the
    loop that collects the markets. Strings are [string]; the loop counter
    and the market count are [N]. *)

(** A JavaScript [number] is a double. It holds every integer up to
    [Number.MAX_SAFE_INTEGER] = 2^53 - 1 exactly; above that, not every
    integer is a number (2^53 + 1 is read as 2^53). A market id is embedded
    on the exact range only: a [SafeInteger] is a number that is not
    negative and for which [Number.isSafeInteger] holds. *)
Definition MAX_SAFE_INTEGER : N := 2 ^ 53 - 1.

Record SafeInteger : Type := mkSafeInteger {
  valueOf : N;
  isSafeInteger : (valueOf <=? MAX_SAFE_INTEGER) = true
}.

(** [Number.prototype.toString(16)] on a non-negative safe integer: its
    lowercase hexadecimal digits, most significant first, without leading
    zeros, and ["0"] for zero. *)
Definition toString16 (n : SafeInteger) : string :=
  HexadecimalString.NilZero.string_of_uint (N.to_hex_uint (valueOf n)).

Fixpoint zeroFill (k : nat) : string :=
  match k with
  | O => EmptyString
  | S k => String "0"%char (zeroFill k)
  end.

(** [s.padStart(targetLength, '0')]: zeros are put in front of [s] until it
    has [targetLength] characters; a string already that long is returned
    as it is. *)
Definition padStart0 (targetLength : nat) (s : string) : string :=
  String.append (zeroFill (targetLength - String.length s)) s.

Definition encodeGetMarket (marketId : SafeInteger) : string :=
  String.append "0x3a057ac1" (padStart0 64 (toString16 marketId)).

Section FetchLoop.

(** What the request and the decoding of market [i] give: the decoded
    market, or nothing when the request throws, the result is empty or
    ["0x"], or [decodeMarketResult] returns [null]. *)
Context {Fetched : Type} (fetchMarket : N -> option Fetched).

(** The body of [for (let i = 1; i <= count; i++)], run [n] more times from
    [i]: a market that was fetched is pushed with its id, a failure is
    skipped. *)
Fixpoint fetchLoop (n : nat) (i : N) (fetchedMarkets : list (N * Fetched))
    : list (N * Fetched) :=
  match n with
  | O => fetchedMarkets
  | S n =>
      fetchLoop n (i + 1)
        (match fetchMarket i with
         | Some market => fetchedMarkets ++ [(i, market)]
         | None => fetchedMarkets
         end)
  end.

(** The list handed to [setMarkets] for a market count [count]. *)
Definition fetchMarkets (count : N) : list (N * Fetched) :=
  if count =? 0 then [] else rev (fetchLoop (N.to_nat count) 1 []).

End FetchLoop.

(** ** Function selectors *)

(** A call reaches the function whose selector its data starts with: the
    first four bytes of the Keccak-256 hash of the function's signature.
    The source writes the selector of [getMarket] as a constant, with the
    expression it stands for, [keccak256("getMarket(uint256)").slice(0, 10)],
    beside it; [keccak256] below is that function, from a string to the
    hexadecimal string of its hash, ["0x"] in front.

    Keccak-256 is the sponge over the permutation Keccak-f[1600], with a
    rate of 136 bytes and the padding 0x01 .. 0x80. The state is 25 lanes
    of 64 bits; lane (x, y) is at index x + 5y. *)
Module Keccak.

Definition mask64 : N := 2 ^ 64 - 1.

Definition rotl64 (x n : N) : N :=
  N.lor (N.land (N.shiftl x n) mask64) (N.shiftr x (64 - n)).

Definition lane (A : list N) (x y : N) : N :=
  nth (N.to_nat (x mod 5 + 5 * (y mod 5))) A 0.

Definition lanes (f : N -> N -> N) : list N :=
  map (fun i => f (N.of_nat i mod 5) (N.of_nat i / 5)) (seq 0 25).

Definition rotation_offsets : list N :=
  [  0;  1; 62; 28; 27;
    36; 44;  6; 55; 20;
     3; 10; 43; 25; 39;
    41; 45; 15; 21;  8;
    18;  2; 61; 56; 14 ].

Definition round_constants : list N :=
  [ 0x0000000000000001; 0x0000000000008082; 0x800000000000808A;
    0x8000000080008000; 0x000000000000808B; 0x0000000080000001;
    0x8000000080008081; 0x8000000000008009; 0x000000000000008A;
    0x0000000000000088; 0x0000000080008009; 0x000000008000000A;
    0x000000008000808B; 0x800000000000008B; 0x8000000000008089;
    0x8000000000008003; 0x8000000000008002; 0x8000000000000080;
    0x000000000000800A; 0x800000008000000A; 0x8000000080008081;
    0x8000000000008080; 0x0000000080000001; 0x8000000080008008 ].

Definition theta (A : list N) : list N :=
  let C x := fold_left N.lxor (map (lane A x) [1; 2; 3; 4]) (lane A x 0) in
  let D x := N.lxor (C (x + 4)) (rotl64 (C (x + 1)) 1) in
  lanes (fun x y => N.lxor (lane A x y) (D x)).

Definition rho_pi (A : list N) : list N :=
  lanes (fun x y =>
           let x0 := (x + 3 * y) mod 5 in
           rotl64 (lane A x0 x) (nth (N.to_nat (x0 + 5 * x)) rotation_offsets 0)).

Definition chi (B : list N) : list N :=
  lanes (fun x y =>
           N.lxor (lane B x y)
             (N.land (N.lxor (lane B (x + 1) y) mask64) (lane B (x + 2) y))).

Definition iota (rc : N) (A : list N) : list N :=
  match A with
  | [] => []
  | a :: A' => N.lxor a rc :: A'
  end.

Definition round (A : list N) (rc : N) : list N :=
  iota rc (chi (rho_pi (theta A))).

Definition keccak_f (A : list N) : list N :=
  fold_left round round_constants A.

(** The message, bytes as numbers below 256, filled up to a multiple of
    the rate. *)
Definition pad (msg : list N) : list N :=
  let q := (136 - length msg mod 136)%nat in
  match q with
  | 1%nat => msg ++ [0x81]
  | _ => msg ++ [0x01] ++ List.repeat 0 (q - 2) ++ [0x80]
  end.

Fixpoint lane_of_bytes (bs : list N) : N :=
  match bs with
  | [] => 0
  | b :: bs => b + 256 * lane_of_bytes bs
  end.

Definition bytes_of_lane (l : N) : list N :=
  map (fun i => N.land (N.shiftr l (8 * N.of_nat i)) 255) (seq 0 8).

Definition absorb_block (A block : list N) : list N :=
  map (fun i =>
         N.lxor (nth i A 0)
           (if (i <? 17)%nat
            then lane_of_bytes (firstn 8 (skipn (8 * i) block))
            else 0))
      (seq 0 25).

Fixpoint absorb (blocks : nat) (bytes A : list N) : list N :=
  match blocks with
  | O => A
  | S blocks =>
      absorb blocks (skipn 136 bytes)
        (keccak_f (absorb_block A (firstn 136 bytes)))
  end.

Definition squeeze (A : list N) : list N :=
  flat_map bytes_of_lane (firstn 4 A).

Definition digest (msg : list N) : list N :=
  let padded := pad msg in
  squeeze (absorb (length padded / 136) padded (List.repeat 0 25%nat)).

Definition hexdigit (d : N) : ascii :=
  nth (N.to_nat d) (list_ascii_of_string "0123456789abcdef") "0"%char.

Definition hexlify (bs : list N) : string :=
  fold_right
    (fun b s => String (hexdigit (b / 16)) (String (hexdigit (b mod 16)) s))
    EmptyString bs.

Definition keccak256 (msg : string) : string :=
  String.append "0x"
    (hexlify (digest (map N_of_ascii (list_ascii_of_string msg)))).

End Keccak.

(** The functions that the contract declares, with the getters of its
    public state variables, as the signatures their selectors are derived
    from. *)
Definition declared_functions : list string :=
  [ "token()"; "marketCount()"; "minBetSize()"; "maxBetSize()";
    "platformFeeBps()"; "MAX_FEE_BPS()"; "BPS_DENOMINATOR()";
    "accumulatedFees()"; "markets(uint256)"; "yesStakes(uint256,address)";
    "noStakes(uint256,address)"; "claimed(uint256,address)";
    "createMarket(string,uint64)"; "betYes(uint256,uint256)";
    "betNo(uint256,uint256)"; "resolveMarket(uint256,bool)";
    "claim(uint256)"; "withdrawFees(address)"; "setFee(uint256)";
    "setBetLimits(uint256,uint256)"; "getMarket(uint256)";
    "getOdds(uint256)"; "getUserStakes(uint256,address)";
    "calculatePayout(uint256,address)";
    "calculatePayoutAfterFee(uint256,address)" ]%string.

(** * Properties *)

(** ** Symbolic execution *)

Ltac break_hyp H :=
  match type of H with
  | context [match ?x with _ => _ end] =>
      lazymatch x with
      | context [match _ with _ => _ end] => fail
      | _ => destruct x eqn:?
      end
  end.

Ltac break_goal :=
  match goal with
  | |- context [match ?x with _ => _ end] =>
      lazymatch x with
      | context [match _ with _ => _ end] => fail
      | _ => destruct x eqn:?
      end
  end.

Ltac unfold_monad :=
  unfold nonReentrant, onlyOwner, emit, revert_if, require, checked_add,
    checked_mul, checked_sub, checked_div, token_safeTransfer,
    token_safeTransferFrom, ignore, bind, ret, revert, gets, modify in *.

Ltac run_hyp H :=
  unfold_monad; cbv beta iota in H;
  repeat (break_hyp H; cbv beta iota in H; try discriminate H).

Ltac fold_reads :=
  repeat match goal with
    | |- context [default emptyMarket (markets ?w !! ?i)] =>
        change (default emptyMarket (markets w !! i)) with (market_at w i) in *
    | |- context [default 0 (yesStakes ?w !! (?i, ?a))] =>
        change (default 0 (yesStakes w !! (i, a))) with (yesStake_at w i a) in *
    | |- context [default 0 (noStakes ?w !! (?i, ?a))] =>
        change (default 0 (noStakes w !! (i, a))) with (noStake_at w i a) in *
    | |- context [default false (claimed ?w !! (?i, ?a))] =>
        change (default false (claimed w !! (i, a)))
          with (claimed_at w i a) in *
    | H : context [default emptyMarket (markets ?w !! ?i)] |- _ =>
        change (default emptyMarket (markets w !! i)) with (market_at w i) in *
    | H : context [default 0 (yesStakes ?w !! (?i, ?a))] |- _ =>
        change (default 0 (yesStakes w !! (i, a))) with (yesStake_at w i a) in *
    | H : context [default 0 (noStakes ?w !! (?i, ?a))] |- _ =>
        change (default 0 (noStakes w !! (i, a))) with (noStake_at w i a) in *
    | H : context [default false (claimed ?w !! (?i, ?a))] |- _ =>
        change (default false (claimed w !! (i, a)))
          with (claimed_at w i a) in *
    end.

Ltac simpl_world :=
  unfold store_market, market_at, yesStake_at, noStake_at, claimed_at in *;
  cbn [token self owner entered marketCount minBetSize maxBetSize
       platformFeeBps accumulatedFees markets yesStakes noStakes claimed
       events set_token set_entered set_marketCount set_betLimits
       set_platformFeeBps set_accumulatedFees set_markets set_yesStakes
       set_noStakes set_claimed set_events fst snd] in *;
  fold_reads.

Ltac bool_to_prop :=
  repeat match goal with
    | H : (_ <=? _) = true |- _ => apply N.leb_le in H
    | H : (_ <=? _) = false |- _ => apply N.leb_gt in H
    | H : (_ <? _) = true |- _ => apply N.ltb_lt in H
    | H : (_ <? _) = false |- _ => apply N.ltb_ge in H
    | H : (_ =? _) = true |- _ => apply N.eqb_eq in H
    | H : (_ =? _) = false |- _ => apply N.eqb_neq in H
    | H : negb _ = true |- _ => apply negb_true_iff in H
    | H : negb _ = false |- _ => apply negb_false_iff in H
    | H : _ && _ = true |- _ => apply andb_true_iff in H; destruct H
    | H : _ || _ = false |- _ => apply orb_false_iff in H; destruct H
    end.

Section Properties.

Context {T : Type} `{Tok : IERC20 T}.

#[local] Abbreviation World := (World T).

Implicit Types (w : World) (env : Env) (op : Op).

(** *** The view [calculatePayout] *)

Lemma calculatePayout_view marketId user w :
  (exists p, calculatePayout marketId user w = Ok p w) \/
  (exists e, calculatePayout marketId user w = Revert e w).
Proof.
  unfold calculatePayout; unfold_monad.
  repeat (break_goal; cbv beta iota); eauto.
Qed.

Lemma calculatePayout_ext marketId user w1 w2 :
  markets w2 = markets w1 -> yesStakes w2 = yesStakes w1 ->
  noStakes w2 = noStakes w1 ->
  calculatePayout marketId user w2 =
  match calculatePayout marketId user w1 with
  | Ok p _ => Ok p w2
  | Revert e _ => Revert e w2
  end.
Proof.
  intros Hm Hy Hn.
  unfold calculatePayout; unfold_monad.
  cbv beta iota. unfold market_at. rewrite Hm.
  repeat (break_goal; cbv beta iota; unfold yesStake_at, noStake_at;
          rewrite ?Hy, ?Hn); eauto.
Qed.

Lemma call_calculatePayout_ext marketId user w1 w2 :
  markets w2 = markets w1 -> yesStakes w2 = yesStakes w1 ->
  noStakes w2 = noStakes w1 ->
  call (calculatePayout marketId user) w2 =
  call (calculatePayout marketId user) w1.
Proof.
  intros Hm Hy Hn. unfold call.
  rewrite (calculatePayout_ext marketId user w1 w2) by assumption.
  destruct (calculatePayout marketId user w1); reflexivity.
Qed.

Lemma call_calculatePayout marketId user w :
  call (calculatePayout marketId user) w =
  let mk := market_at w marketId in
  let stake := winningStake w marketId user in
  if negb (resolved mk) then inr 0
  else if UINT256_MAX <? totalPool mk then inl PanicOverflow
  else if (stake =? 0) || (winningPool mk =? 0) then inr 0
  else if UINT256_MAX <? stake * totalPool mk then inl PanicOverflow
  else inr (stake * totalPool mk / winningPool mk).
Proof.
  unfold call, calculatePayout, winningStake, winningPool, totalPool.
  unfold_monad. cbv beta iota zeta.
  destruct (resolved (market_at w marketId)); cbn [negb]; [|reflexivity].
  destruct (outcomeYes (market_at w marketId));
    repeat (break_goal; cbv beta iota); try reflexivity;
    bool_to_prop; try lia;
    repeat match goal with
      | H : _ || _ = true |- _ => apply orb_true_iff in H; destruct H
      end;
    bool_to_prop; try lia; try congruence.
Qed.

Lemma calculatePayout_positive marketId user w p :
  call (calculatePayout marketId user) w = inr p -> p <> 0 ->
  resolved (market_at w marketId) = true /\
  winningPool (market_at w marketId) <> 0 /\
  winningStake w marketId user <> 0 /\
  p = winningStake w marketId user * totalPool (market_at w marketId)
      / winningPool (market_at w marketId).
Proof.
  rewrite call_calculatePayout. cbv zeta. intros H Hp.
  repeat (break_hyp H; try discriminate H); inversion H; subst;
    try contradiction.
  bool_to_prop. auto.
Qed.

(** *** What a successful call did *)

Lemma createMarket_success env q dl w id w' :
  createMarket env q dl w = Ok id w' ->
  block_timestamp env < dl /\
  marketCount w + 1 <= UINT256_MAX /\
  id = marketCount w + 1 /\
  w' = mkWorld (token w) (self w) (owner w) (entered w) (marketCount w + 1)
         (minBetSize w) (maxBetSize w) (platformFeeBps w) (accumulatedFees w)
         (<[marketCount w + 1 := mkMarket q dl false false 0 0]> (markets w))
         (yesStakes w) (noStakes w) (claimed w)
         (events w ++ [MarketCreated (marketCount w + 1) q dl (msg_sender env)]).
Proof.
  intros H. unfold createMarket in H. run_hyp H.
  simpl_world. bool_to_prop. inversion H; subst. auto.
Qed.

Lemma placeBet_success env marketId amount isYes w w' :
  nonReentrant (_placeBet env marketId amount isYes) w = Ok tt w' ->
  let mk := market_at w marketId in
  let who := msg_sender env in
  entered w = false /\
  deadline mk <> 0 /\
  resolved mk = false /\
  block_timestamp env < deadline mk /\
  minBetSize w <= amount /\
  (maxBetSize w = 0 \/ amount <= maxBetSize w) /\
  exists t',
    safeTransferFrom (self w) who (self w) amount (token w) = Some t' /\
    if isYes then
      yesPool mk + amount <= UINT256_MAX /\
      yesStake_at w marketId who + amount <= UINT256_MAX /\
      w' = mkWorld t' (self w) (owner w) false (marketCount w)
             (minBetSize w) (maxBetSize w) (platformFeeBps w)
             (accumulatedFees w)
             (<[marketId := with_yesPool (yesPool mk + amount) mk]> (markets w))
             (<[(marketId, who) := yesStake_at w marketId who + amount]>
                (yesStakes w))
             (noStakes w) (claimed w)
             (events w ++ [BetPlaced marketId who true amount])
    else
      noPool mk + amount <= UINT256_MAX /\
      noStake_at w marketId who + amount <= UINT256_MAX /\
      w' = mkWorld t' (self w) (owner w) false (marketCount w)
             (minBetSize w) (maxBetSize w) (platformFeeBps w)
             (accumulatedFees w)
             (<[marketId := with_noPool (noPool mk + amount) mk]> (markets w))
             (yesStakes w)
             (<[(marketId, who) := noStake_at w marketId who + amount]>
                (noStakes w))
             (claimed w)
             (events w ++ [BetPlaced marketId who false amount]).
Proof.
  intros H. unfold _placeBet in H. run_hyp H.
  all: simpl_world; bool_to_prop; inversion H; subst; clear H.
  all: repeat split; auto.
  all: try (eexists; split; [eassumption|]; repeat split; auto).
  all: apply andb_false_iff in Heqb4; destruct Heqb4; bool_to_prop; lia.
Qed.

Lemma resolveMarket_success env marketId outcome w w' :
  resolveMarket env marketId outcome w = Ok tt w' ->
  let mk := market_at w marketId in
  msg_sender env = owner w /\
  deadline mk <> 0 /\
  resolved mk = false /\
  deadline mk <= block_timestamp env /\
  w' = mkWorld (token w) (self w) (owner w) (entered w) (marketCount w)
         (minBetSize w) (maxBetSize w) (platformFeeBps w) (accumulatedFees w)
         (<[marketId := with_resolution outcome mk]> (markets w))
         (yesStakes w) (noStakes w) (claimed w)
         (events w ++ [MarketResolved marketId outcome]).
Proof.
  intros H. unfold resolveMarket in H. run_hyp H.
  simpl_world; bool_to_prop; inversion H; subst; auto.
Qed.

Lemma claim_success env marketId w w' :
  claim env marketId w = Ok tt w' ->
  let who := msg_sender env in
  entered w = false /\
  deadline (market_at w marketId) <> 0 /\
  resolved (market_at w marketId) = true /\
  claimed_at w marketId who = false /\
  exists p t',
    call (calculatePayout marketId who) w = inr p /\
    p <> 0 /\
    p * platformFeeBps w <= UINT256_MAX /\
    p * platformFeeBps w / BPS_DENOMINATOR <= p /\
    accumulatedFees w + p * platformFeeBps w / BPS_DENOMINATOR <= UINT256_MAX /\
    safeTransfer (self w) who
      (p - p * platformFeeBps w / BPS_DENOMINATOR) (token w) = Some t' /\
    w' = mkWorld t' (self w) (owner w) false (marketCount w) (minBetSize w)
           (maxBetSize w) (platformFeeBps w)
           (accumulatedFees w + p * platformFeeBps w / BPS_DENOMINATOR)
           (markets w) (yesStakes w) (noStakes w)
           (<[(marketId, who) := true]> (claimed w))
           (events w ++ [Claimed marketId who
                           (p - p * platformFeeBps w / BPS_DENOMINATOR)]).
Proof.
  intros H. unfold claim in H. run_hyp H.
  match goal with
  | E : calculatePayout _ _ (set_entered true w) = Ok ?a ?w0 |- _ =>
      assert (w0 = set_entered true w)
        by (destruct (calculatePayout_view marketId (msg_sender env)
                        (set_entered true w)) as [[? E']|[? E']];
            rewrite E' in E; congruence);
      subst w0;
      assert (call (calculatePayout marketId (msg_sender env)) w = inr a)
        by (rewrite <- (call_calculatePayout_ext marketId (msg_sender env) w
                          (set_entered true w)) by reflexivity;
            unfold call; rewrite E; reflexivity);
      clear E
  end.
  simpl_world; bool_to_prop; inversion H; subst; clear H.
  repeat split; auto. eauto 12.
Qed.

Lemma withdrawFees_success env to w w' :
  withdrawFees env to w = Ok tt w' ->
  msg_sender env = owner w /\
  accumulatedFees w <> 0 /\
  exists t',
    safeTransfer (self w) to (accumulatedFees w) (token w) = Some t' /\
    w' = mkWorld t' (self w) (owner w) (entered w) (marketCount w)
           (minBetSize w) (maxBetSize w) (platformFeeBps w) 0
           (markets w) (yesStakes w) (noStakes w) (claimed w)
           (events w ++ [FeesWithdrawn to (accumulatedFees w)]).
Proof.
  intros H. unfold withdrawFees in H. run_hyp H.
  simpl_world; bool_to_prop; inversion H; subst; eauto.
Qed.

Lemma setFee_success env newFeeBps w w' :
  setFee env newFeeBps w = Ok tt w' ->
  msg_sender env = owner w /\
  newFeeBps <= MAX_FEE_BPS /\
  w' = mkWorld (token w) (self w) (owner w) (entered w) (marketCount w)
         (minBetSize w) (maxBetSize w) newFeeBps (accumulatedFees w)
         (markets w) (yesStakes w) (noStakes w) (claimed w)
         (events w ++ [FeeUpdated (platformFeeBps w) newFeeBps]).
Proof.
  intros H. unfold setFee in H. run_hyp H.
  simpl_world; bool_to_prop; inversion H; subst; auto.
Qed.

Lemma setBetLimits_success env lo hi w w' :
  setBetLimits env lo hi w = Ok tt w' ->
  msg_sender env = owner w /\
  w' = mkWorld (token w) (self w) (owner w) (entered w) (marketCount w)
         lo hi (platformFeeBps w) (accumulatedFees w)
         (markets w) (yesStakes w) (noStakes w) (claimed w) (events w).
Proof.
  intros H. unfold setBetLimits in H. run_hyp H.
  simpl_world; bool_to_prop; inversion H; subst; auto.
Qed.

(** *** Transactions *)

Lemma dispatch_success env op w u w' :
  dispatch env op w = Ok u w' ->
  match op with
  | CreateMarket q dl => createMarket env q dl w = Ok (marketCount w + 1) w'
  | PlaceBet marketId amount isYes =>
      nonReentrant (_placeBet env marketId amount isYes) w = Ok tt w'
  | ResolveMarket marketId outcome =>
      resolveMarket env marketId outcome w = Ok tt w'
  | Claim marketId => claim env marketId w = Ok tt w'
  | WithdrawFees to => withdrawFees env to w = Ok tt w'
  | SetFee newFeeBps => setFee env newFeeBps w = Ok tt w'
  | SetBetLimits lo hi => setBetLimits env lo hi w = Ok tt w'
  end.
Proof.
  destruct u. destruct op; cbn [dispatch]; auto.
  - unfold ignore, bind, ret. intros H.
    destruct (createMarket env q dl w) as [id w1|] eqn:E; [|discriminate].
    inversion H; subst.
    destruct (createMarket_success _ _ _ _ _ _ E) as (_ & _ & -> & _).
    reflexivity.
  - destruct isYes; auto.
Qed.

Lemma transact_failed env op w w' e :
  transact env op w = (w', Failed e) -> w' = w.
Proof.
  unfold transact. destruct (dispatch env op w); congruence.
Qed.

(** *** Sums of stakes *)

Lemma sumN_cons x l : sumN (x :: l) = x + sumN l.
Proof. reflexivity. Qed.

Lemma sumN_insert_other (m : gmap (N * address) N) id id' who v l :
  id <> id' ->
  sumN (map (fun a => default 0 (<[(id, who) := v]> m !! (id', a))) l) =
  sumN (map (fun a => default 0 (m !! (id', a))) l).
Proof.
  intros Hne. induction l as [|a l IH]; [reflexivity|].
  cbn [map]. rewrite !sumN_cons, IH, lookup_insert_ne by congruence.
  reflexivity.
Qed.

Lemma sumN_insert_absent (m : gmap (N * address) N) id who v l :
  who ∉ l ->
  sumN (map (fun a => default 0 (<[(id, who) := v]> m !! (id, a))) l) =
  sumN (map (fun a => default 0 (m !! (id, a))) l).
Proof.
  induction l as [|a l IH]; [reflexivity|]. intros Hn.
  apply not_elem_of_cons in Hn as [Hne Hn].
  cbn [map]. rewrite !sumN_cons, IH, lookup_insert_ne by congruence.
  reflexivity.
Qed.

Lemma sumN_insert_le (m : gmap (N * address) N) id who amount l :
  NoDup l ->
  sumN (map (fun a => default 0
               (<[(id, who) := default 0 (m !! (id, who)) + amount]> m
                  !! (id, a))) l)
  <= sumN (map (fun a => default 0 (m !! (id, a))) l) + amount.
Proof.
  induction 1 as [|a l Hnin Hnd IH]; [cbn; lia|].
  cbn [map]. rewrite !sumN_cons.
  destruct (decide (a = who)) as [->|Hne].
  - rewrite lookup_insert_eq, sumN_insert_absent by assumption. cbn. lia.
  - rewrite lookup_insert_ne by congruence. lia.
Qed.

(** *** The invariant *)

Lemma market_at_None w id : markets w !! id = None -> market_at w id = emptyMarket.
Proof. unfold market_at. intros ->. reflexivity. Qed.

Lemma wf_constructor deployer this (tok : T) lo hi :
  wf (constructor deployer this tok lo hi).
Proof.
  split; unfold exists_market, market_at, claimed_at, yesStake_at, noStake_at;
    cbn [constructor entered markets marketCount claimed yesStakes noStakes].
  - reflexivity.
  - intros. apply lookup_empty.
  - intros id Hid. lia.
  - intros id. rewrite lookup_empty. cbn. split; apply N.le_0_l.
  - intros id a. rewrite lookup_empty. discriminate.
  - intros id l _. induction l as [|a l IH]; [cbn; lia|].
    cbn [map]. rewrite sumN_cons, lookup_empty. cbn [default]. lia.
  - intros id l _. induction l as [|a l IH]; [cbn; lia|].
    cbn [map]. rewrite sumN_cons, lookup_empty. cbn [default]. lia.
Qed.

Ltac read_world :=
  unfold exists_market, market_at, claimed_at, yesStake_at, noStake_at in *;
  cbn [token self owner entered marketCount minBetSize maxBetSize
       platformFeeBps accumulatedFees markets yesStakes noStakes claimed
       events] in *.

Lemma wf_transact env op w : wf w -> wf (fst (transact env op w)).
Proof.
  intros Hwf. unfold transact.
  destruct (dispatch env op w) as [u w'|] eqn:E; [|assumption].
  apply dispatch_success in E. cbn [fst].
  destruct op.
  - apply createMarket_success in E as (Ht & Hc & _ & ->).
    destruct Hwf as [H1 H2 H3 H4 H5 H6 H7].
    assert (Hfresh : markets w !! (marketCount w + 1) = None)
      by (apply H2; unfold exists_market; lia).
    split; read_world.
    + assumption.
    + intros id Hid. rewrite lookup_insert_ne by lia. apply H2. lia.
    + intros id Hid. rewrite lookup_insert. case_decide; subst; cbn; [lia|].
      apply H3. lia.
    + intros id. rewrite lookup_insert. case_decide; subst; cbn; [lia|].
      apply H4.
    + intros id a Hcl. rewrite lookup_insert. case_decide; subst.
      * destruct (H5 _ _ Hcl) as [Hr _]. rewrite Hfresh in Hr. discriminate.
      * exact (H5 _ _ Hcl).
    + intros id l Hl. rewrite lookup_insert. case_decide; subst.
      * specialize (H6 (marketCount w + 1) l Hl). rewrite Hfresh in H6.
        exact H6.
      * apply H6. assumption.
    + intros id l Hl. rewrite lookup_insert. case_decide; subst.
      * specialize (H7 (marketCount w + 1) l Hl). rewrite Hfresh in H7.
        exact H7.
      * apply H7. assumption.
  - apply placeBet_success in E.
    destruct E as (He & Hd & Hr & Hnow & Hlo & Hhi & t' & Ht & E).
    destruct Hwf as [H1 H2 H3 H4 H5 H6 H7].
    assert (Hin : exists_market w marketId).
    { destruct (decide (exists_market w marketId)) as [|Hn]; [assumption|].
      apply H2 in Hn. apply market_at_None in Hn. rewrite Hn in Hd.
      contradiction. }
    destruct isYes; destruct E as (Hp & Hs & ->); split; read_world.
    + reflexivity.
    + intros id Hid. rewrite lookup_insert_ne by (intros ->; tauto). auto.
    + intros id Hid. rewrite lookup_insert. case_decide; subst; cbn; auto.
    + intros id. rewrite lookup_insert. case_decide; subst; cbn; [|apply H4].
      split; [lia|apply H4].
    + intros id a Hcl. destruct (H5 _ _ Hcl) as [Hres Hw].
      rewrite lookup_insert. case_decide; subst; [congruence|auto].
    + intros id l Hl. rewrite lookup_insert. case_decide; subst; cbn.
      * etrans; [apply sumN_insert_le; assumption|].
        specialize (H6 id l Hl). lia.
      * rewrite sumN_insert_other by assumption. auto.
    + intros id l Hl. rewrite lookup_insert. case_decide; subst; cbn; auto.
    + reflexivity.
    + intros id Hid. rewrite lookup_insert_ne by (intros ->; tauto). auto.
    + intros id Hid. rewrite lookup_insert. case_decide; subst; cbn; auto.
    + intros id. rewrite lookup_insert. case_decide; subst; cbn; [|apply H4].
      split; [apply H4|lia].
    + intros id a Hcl. destruct (H5 _ _ Hcl) as [Hres Hw].
      rewrite lookup_insert. case_decide; subst; [congruence|auto].
    + intros id l Hl. rewrite lookup_insert. case_decide; subst; cbn; auto.
    + intros id l Hl. rewrite lookup_insert. case_decide; subst; cbn.
      * etrans; [apply sumN_insert_le; assumption|].
        specialize (H7 id l Hl). lia.
      * rewrite sumN_insert_other by assumption. auto.
  - apply resolveMarket_success in E as (Ho & Hd & Hr & Hnow & ->).
    destruct Hwf as [H1 H2 H3 H4 H5 H6 H7].
    assert (Hin : exists_market w marketId).
    { destruct (decide (exists_market w marketId)) as [|Hn]; [assumption|].
      apply H2 in Hn. apply market_at_None in Hn. rewrite Hn in Hd.
      contradiction. }
    split; read_world.
    + assumption.
    + intros id Hid. rewrite lookup_insert_ne by (intros ->; tauto). auto.
    + intros id Hid. rewrite lookup_insert. case_decide; subst; cbn; auto.
    + intros id. rewrite lookup_insert. case_decide; subst; cbn; apply H4.
    + intros id a Hcl. destruct (H5 _ _ Hcl) as [Hres Hw].
      rewrite lookup_insert. case_decide; subst; [congruence|auto].
    + intros id l Hl. rewrite lookup_insert. case_decide; subst; cbn; auto.
    + intros id l Hl. rewrite lookup_insert. case_decide; subst; cbn; auto.
  - apply claim_success in E.
    destruct E as (He & Hd & Hr & Hc & p & t' & Hp & Hp0 & _ & _ & _ & _ & ->).
    destruct Hwf as [H1 H2 H3 H4 H5 H6 H7].
    split; read_world; auto.
    intros id a. rewrite lookup_insert. case_decide; [|apply H5].
    match goal with H : (_, _) = (_, _) |- _ => inversion H; subst end.
    intros _. destruct (calculatePayout_positive _ _ _ _ Hp Hp0) as (? & ? & _).
    auto.
  - apply withdrawFees_success in E as (Ho & Hf & t' & Ht & ->).
    destruct Hwf. split; read_world; auto.
  - apply setFee_success in E as (Ho & Hf & ->).
    destruct Hwf. split; read_world; auto.
  - apply setBetLimits_success in E as (Ho & ->).
    destruct Hwf. split; read_world; auto.
Qed.

Lemma reachable_wf w : reachable w -> wf w.
Proof.
  induction 1; [apply wf_constructor|apply wf_transact; assumption].
Qed.

Lemma reachable_exec w tx : reachable w -> reachable (exec w tx).
Proof. destruct tx. apply reachable_step. Qed.

Lemma reachable_run txs w : reachable w -> reachable (run txs w).
Proof.
  revert w. induction txs as [|tx txs IH]; intros w Hw; [exact Hw|].
  apply IH, reachable_exec, Hw.
Qed.

Lemma wf_run txs w : wf w -> wf (run txs w).
Proof.
  revert w. induction txs as [|[env op] txs IH]; intros w Hw; [exact Hw|].
  apply IH, wf_transact, Hw.
Qed.

(** *** Facts that persist *)

Lemma wf_resolved_exists w id :
  wf w -> resolved (market_at w id) = true -> exists_market w id.
Proof.
  intros Hwf Hr.
  destruct (decide (exists_market w id)) as [|Hn]; [assumption|].
  apply (wf_absent w Hwf), market_at_None in Hn. rewrite Hn in Hr.
  discriminate.
Qed.

Lemma wf_deadline_exists w id :
  wf w -> deadline (market_at w id) <> 0 -> exists_market w id.
Proof.
  intros Hwf Hd.
  destruct (decide (exists_market w id)) as [|Hn]; [assumption|].
  apply (wf_absent w Hwf), market_at_None in Hn. rewrite Hn in Hd.
  contradiction.
Qed.

(** Every transaction leaves a market as it was, or is the [createMarket]
    that made it, a bet that grew one of its pools before its resolution,
    or its resolution. *)
Lemma transact_market env op w id :
  wf w ->
  let mk := market_at w id in
  let mk' := market_at (fst (transact env op w)) id in
  mk' = mk \/
  (exists q dl, op = CreateMarket q dl /\ ~ exists_market w id /\
     mk' = mkMarket q dl false false 0 0) \/
  (exists amount, op = PlaceBet id amount true /\ resolved mk = false /\
     snd (transact env op w) = Success /\
     mk' = with_yesPool (yesPool mk + amount) mk) \/
  (exists amount, op = PlaceBet id amount false /\ resolved mk = false /\
     snd (transact env op w) = Success /\
     mk' = with_noPool (noPool mk + amount) mk) \/
  (exists outcome, op = ResolveMarket id outcome /\ resolved mk = false /\
     mk' = with_resolution outcome mk).
Proof.
  intros Hwf. cbv zeta. unfold transact.
  destruct (dispatch env op w) as [u w'|] eqn:E; [|left; reflexivity].
  apply dispatch_success in E. cbn [fst snd].
  destruct op.
  - apply createMarket_success in E as (Ht & Hc & _ & ->).
    unfold market_at; cbn [markets]. rewrite lookup_insert.
    case_decide; subst; [|left; reflexivity].
    right; left. exists q, dl. repeat split; auto.
    unfold exists_market; lia.
  - apply placeBet_success in E.
    destruct E as (He & Hd & Hr & Hnow & Hlo & Hhi & t' & Ht & E).
    destruct isYes; destruct E as (Hp & Hs & ->);
      unfold market_at in *; cbn [markets]; rewrite lookup_insert;
      (case_decide; subst; [|left; reflexivity]).
    + right; right; left. eauto.
    + right; right; right; left. eauto.
  - apply resolveMarket_success in E as (Ho & Hd & Hr & Hnow & ->).
    unfold market_at in *; cbn [markets]; rewrite lookup_insert.
    case_decide; subst; [|left; reflexivity].
    right; right; right; right. eauto.
  - apply claim_success in E.
    destruct E as (_ & _ & _ & _ & p & t' & _ & _ & _ & _ & _ & _ & ->).
    left; reflexivity.
  - apply withdrawFees_success in E as (_ & _ & t' & _ & ->). left; reflexivity.
  - apply setFee_success in E as (_ & _ & ->). left; reflexivity.
  - apply setBetLimits_success in E as (_ & ->). left; reflexivity.
Qed.

Lemma resolved_frozen env op w id :
  wf w -> resolved (market_at w id) = true ->
  market_at (fst (transact env op w)) id = market_at w id.
Proof.
  intros Hwf Hr.
  destruct (transact_market env op w id Hwf)
    as [H|[(q & dl & _ & Hn & _)|[(a & _ & Hr' & _)|[(a & _ & Hr' & _)|
        (o & _ & Hr' & _)]]]]; try congruence.
  elim Hn. apply wf_resolved_exists; assumption.
Qed.

Lemma resolved_frozen_run txs w id :
  wf w -> resolved (market_at w id) = true ->
  market_at (run txs w) id = market_at w id.
Proof.
  revert w. induction txs as [|[env op] txs IH]; intros w Hwf Hr;
    [reflexivity|].
  cbn [run fold_left]. fold (run txs (exec w (env, op))).
  unfold exec; cbn [fst snd].
  rewrite IH.
  - apply resolved_frozen; assumption.
  - apply wf_transact; assumption.
  - rewrite resolved_frozen; assumption.
Qed.

Lemma claimed_persists env op w id a :
  claimed_at w id a = true ->
  claimed_at (fst (transact env op w)) id a = true.
Proof.
  intros Hc. unfold transact.
  destruct (dispatch env op w) as [u w'|] eqn:E; [|assumption].
  apply dispatch_success in E. cbn [fst].
  destruct op.
  - apply createMarket_success in E as (_ & _ & _ & ->). assumption.
  - apply placeBet_success in E.
    destruct E as (_ & _ & _ & _ & _ & _ & t' & _ & E).
    destruct isYes; destruct E as (_ & _ & ->); assumption.
  - apply resolveMarket_success in E as (_ & _ & _ & _ & ->). assumption.
  - apply claim_success in E.
    destruct E as (_ & _ & _ & _ & p & t' & _ & _ & _ & _ & _ & _ & ->).
    unfold claimed_at in *; cbn [claimed]. rewrite lookup_insert.
    case_decide; [reflexivity|assumption].
  - apply withdrawFees_success in E as (_ & _ & t' & _ & ->). assumption.
  - apply setFee_success in E as (_ & _ & ->). assumption.
  - apply setBetLimits_success in E as (_ & ->). assumption.
Qed.

Lemma claimed_persists_run txs w id a :
  claimed_at w id a = true -> claimed_at (run txs w) id a = true.
Proof.
  revert w. induction txs as [|[env op] txs IH]; intros w Hc; [assumption|].
  apply IH. apply claimed_persists. assumption.
Qed.

(** *** Why a call fails *)

Ltac failure_of E :=
  run_hyp E; simpl_world; bool_to_prop; inversion E; subst;
  try reflexivity; try congruence; try lia.

Lemma claim_AlreadyClaimed env marketId w :
  entered w = false ->
  deadline (market_at w marketId) <> 0 ->
  resolved (market_at w marketId) = true ->
  claimed_at w marketId (msg_sender env) = true ->
  transact env (Claim marketId) w = (w, Failed AlreadyClaimed).
Proof.
  intros He Hd Hr Hc. unfold transact; cbn [dispatch].
  destruct (claim env marketId w) as [[] w'|e w'] eqn:E.
  - apply claim_success in E. destruct E as (_ & _ & _ & E & _). congruence.
  - unfold claim in E. failure_of E.
Qed.

Lemma claim_NoWinnings env marketId w :
  entered w = false ->
  deadline (market_at w marketId) <> 0 ->
  resolved (market_at w marketId) = true ->
  claimed_at w marketId (msg_sender env) = false ->
  call (calculatePayout marketId (msg_sender env)) w = inr 0 ->
  transact env (Claim marketId) w = (w, Failed NoWinnings).
Proof.
  intros He Hd Hr Hc Hp. unfold transact; cbn [dispatch].
  destruct (claim env marketId w) as [[] w'|e w'] eqn:E.
  - apply claim_success in E.
    destruct E as (_ & _ & _ & _ & p & t' & Hp' & Hp0 & _). congruence.
  - unfold claim in E. run_hyp E; simpl_world; bool_to_prop;
      inversion E; subst; try reflexivity; try congruence.
    all: match goal with
         | E' : calculatePayout _ _ (set_entered true ?w0) = _ |- _ =>
             rewrite (calculatePayout_ext marketId (msg_sender env) w0
                        (set_entered true w0)) in E' by reflexivity;
             unfold call in Hp;
             destruct (calculatePayout marketId (msg_sender env) w0);
             inversion E'; inversion Hp; subst
         end; try congruence.
Qed.

Lemma resolveMarket_Unauthorized env marketId outcome w :
  msg_sender env <> owner w ->
  transact env (ResolveMarket marketId outcome) w = (w, Failed Unauthorized).
Proof.
  intros Ho. unfold transact; cbn [dispatch].
  destruct (resolveMarket env marketId outcome w) as [[] w'|e w'] eqn:E.
  - apply resolveMarket_success in E as (? & _). contradiction.
  - unfold resolveMarket in E. failure_of E.
Qed.

Lemma resolveMarket_NotEnded env marketId outcome w :
  msg_sender env = owner w ->
  deadline (market_at w marketId) <> 0 ->
  resolved (market_at w marketId) = false ->
  block_timestamp env < deadline (market_at w marketId) ->
  transact env (ResolveMarket marketId outcome) w = (w, Failed MarketNotEnded).
Proof.
  intros Ho Hd Hr Hn. unfold transact; cbn [dispatch].
  destruct (resolveMarket env marketId outcome w) as [[] w'|e w'] eqn:E.
  - apply resolveMarket_success in E as (_ & _ & _ & ? & _). lia.
  - unfold resolveMarket in E. failure_of E.
Qed.

Lemma resolveMarket_AlreadyResolved env marketId outcome w :
  msg_sender env = owner w ->
  deadline (market_at w marketId) <> 0 ->
  resolved (market_at w marketId) = true ->
  transact env (ResolveMarket marketId outcome) w =
  (w, Failed MarketAlreadyResolved).
Proof.
  intros Ho Hd Hr. unfold transact; cbn [dispatch].
  destruct (resolveMarket env marketId outcome w) as [[] w'|e w'] eqn:E.
  - apply resolveMarket_success in E as (_ & _ & ? & _). congruence.
  - unfold resolveMarket in E. failure_of E.
Qed.

Lemma placeBet_MarketEnded env marketId amount isYes w :
  entered w = false ->
  deadline (market_at w marketId) <> 0 ->
  resolved (market_at w marketId) = false ->
  deadline (market_at w marketId) <= block_timestamp env ->
  transact env (PlaceBet marketId amount isYes) w = (w, Failed MarketEnded).
Proof.
  intros He Hd Hr Hn. unfold transact.
  destruct (dispatch env (PlaceBet marketId amount isYes) w)
    as [[] w'|e w'] eqn:E.
  - apply dispatch_success, placeBet_success in E.
    destruct E as (_ & _ & _ & ? & _). lia.
  - cbn [dispatch] in E. unfold betYes, betNo, _placeBet in E.
    destruct isYes; failure_of E.
Qed.

Lemma createMarket_DeadlineMustBeFuture env q dl w :
  dl <= block_timestamp env ->
  transact env (CreateMarket q dl) w = (w, Failed DeadlineMustBeFuture).
Proof.
  intros Hd. unfold transact.
  destruct (dispatch env (CreateMarket q dl) w) as [[] w'|e w'] eqn:E.
  - apply dispatch_success, createMarket_success in E as (? & _). lia.
  - cbn [dispatch] in E. unfold createMarket in E. failure_of E.
Qed.

Lemma transact_success env op w :
  snd (transact env op w) = Success ->
  dispatch env op w = Ok tt (fst (transact env op w)).
Proof.
  unfold transact. destruct (dispatch env op w) as [[] w'|]; cbn [fst snd];
    [reflexivity|discriminate].
Qed.

Lemma transact_pair env op w w' o :
  transact env op w = (w', o) ->
  fst (transact env op w) = w' /\ snd (transact env op w) = o.
Proof. intros ->. split; reflexivity. Qed.

(** ** Claims, exactly once *)

(** C1. [claim(marketId)] succeeds only on a resolved market that the
    caller has not claimed yet; it fails [NoWinnings] when the payout
    computed for the caller is zero; and it succeeds at most once per
    (market, account): once a claim has succeeded, every later claim by the
    same account on the same market, whatever transactions happen in
    between, fails [AlreadyClaimed]. *)
Theorem claim_at_most_once env marketId w :
  reachable w ->
  (snd (transact env (Claim marketId) w) = Success ->
   resolved (market_at w marketId) = true /\
   claimed_at w marketId (msg_sender env) = false) /\
  (resolved (market_at w marketId) = true ->
   claimed_at w marketId (msg_sender env) = false ->
   call (calculatePayout marketId (msg_sender env)) w = inr 0 ->
   transact env (Claim marketId) w = (w, Failed NoWinnings)) /\
  (snd (transact env (Claim marketId) w) = Success ->
   forall txs env', msg_sender env' = msg_sender env ->
     transact env' (Claim marketId)
       (run txs (fst (transact env (Claim marketId) w))) =
     (run txs (fst (transact env (Claim marketId) w)), Failed AlreadyClaimed)).
Proof.
  intros Hreach. pose proof (reachable_wf w Hreach) as Hwf.
  split; [|split].
  - intros Hs. apply transact_success, dispatch_success, claim_success in Hs.
    tauto.
  - intros Hr Hc Hp. apply claim_NoWinnings; try assumption.
    + apply (wf_unlocked w Hwf).
    + apply (wf_present w Hwf), wf_resolved_exists; assumption.
  - intros Hs txs env' Hsender.
    pose proof (wf_transact env (Claim marketId) w Hwf) as Hwf1.
    apply transact_success, dispatch_success, claim_success in Hs.
    destruct Hs as (_ & _ & Hr & _ & p & t' & _ & _ & _ & _ & _ & _ & Hw1).
    set (w1 := fst (transact env (Claim marketId) w)) in *.
    assert (Hr1 : resolved (market_at w1 marketId) = true)
      by (rewrite Hw1; exact Hr).
    assert (Hc1 : claimed_at w1 marketId (msg_sender env) = true).
    { rewrite Hw1. unfold claimed_at; cbn [claimed].
      rewrite lookup_insert_eq. reflexivity. }
    pose proof (wf_run txs w1 Hwf1) as Hwf2.
    assert (Hr2 : resolved (market_at (run txs w1) marketId) = true)
      by (rewrite resolved_frozen_run; assumption).
    apply claim_AlreadyClaimed.
    + apply (wf_unlocked _ Hwf2).
    + apply (wf_present _ Hwf2), wf_resolved_exists; assumption.
    + exact Hr2.
    + rewrite Hsender. apply claimed_persists_run. exact Hc1.
Qed.

(** ** Payout and fee of a claim *)

(** C2. On every successful [claim(marketId)], the gross payout [p]
    computed for the caller is positive, the fee is
    [floor(p * feeBps / 10000)], the accumulated fees grow by exactly the
    fee, and the caller is transferred exactly [p] minus the fee. With
    yesPool = 700, noPool = 300, outcome yes, a yes-stake of 100 and a fee
    of 200 bps, the payout is 142, the fee 2, and the caller receives 140. *)
Theorem claim_fee_split env marketId w w' :
  transact env (Claim marketId) w = (w', Success) ->
  exists p,
    let fee := p * platformFeeBps w / 10000 in
    call (calculatePayout marketId (msg_sender env)) w = inr p /\
    0 < p /\
    accumulatedFees w' = accumulatedFees w + fee /\
    safeTransfer (self w) (msg_sender env) (p - fee) (token w)
      = Some (token w') /\
    events w' = events w ++ [Claimed marketId (msg_sender env) (p - fee)] /\
    (yesPool (market_at w marketId) = 700 ->
     noPool (market_at w marketId) = 300 ->
     outcomeYes (market_at w marketId) = true ->
     yesStake_at w marketId (msg_sender env) = 100 ->
     platformFeeBps w = 200 ->
     p = 142 /\ fee = 2 /\ p - fee = 140).
Proof.
  intros H. apply transact_pair in H as [Hw Hs].
  apply transact_success, dispatch_success, claim_success in Hs.
  rewrite Hw in Hs.
  destruct Hs as (_ & _ & Hr & _ & p & t' & Hp & Hp0 & _ & _ & _ & Ht & ->).
  exists p. cbv zeta. cbn [accumulatedFees token events].
  change BPS_DENOMINATOR with 10000 in *.
  split; [assumption|]. split; [lia|]. split; [reflexivity|].
  split; [assumption|]. split; [reflexivity|].
  intros Hy Hn Ho Hst Hbps.
  destruct (calculatePayout_positive _ _ _ _ Hp Hp0) as (_ & _ & _ & ->).
  unfold winningStake, winningPool, totalPool.
  rewrite Ho, Hy, Hn, Hst, Hbps. repeat split; reflexivity.
Qed.

(** ** The payout formula *)

(** C3, as the code has it. [calculatePayout(marketId, account)] returns 0
    when the market is unresolved. On a resolved market, with
    [total = yesPool + noPool] and [winningPool] the pool of the outcome, it
    reverts with an overflow panic when [total] does not fit in 256 bits;
    otherwise it returns 0 when the account's stake on the winning side is
    0 or [winningPool] is 0; otherwise it reverts with an overflow panic
    when [stake * total] does not fit in 256 bits, and returns
    [floor(stake * total / winningPool)] when it does. The call never
    changes the storage. *)
Theorem calculatePayout_cases marketId user w :
  let mk := market_at w marketId in
  let stake := winningStake w marketId user in
  (resolved mk = false -> call (calculatePayout marketId user) w = inr 0) /\
  (resolved mk = true -> totalPool mk <= UINT256_MAX ->
   stake = 0 \/ winningPool mk = 0 ->
   call (calculatePayout marketId user) w = inr 0) /\
  (resolved mk = true -> stake <> 0 -> winningPool mk <> 0 ->
   stake * totalPool mk <= UINT256_MAX ->
   call (calculatePayout marketId user) w =
   inr (stake * totalPool mk / winningPool mk)) /\
  (resolved mk = true ->
   UINT256_MAX < totalPool mk \/
   (stake <> 0 /\ winningPool mk <> 0 /\ UINT256_MAX < stake * totalPool mk) ->
   call (calculatePayout marketId user) w = inl PanicOverflow) /\
  (forall r, calculatePayout marketId user w = r ->
   r = match call (calculatePayout marketId user) w with
       | inr p => Ok p w
       | inl e => Revert e w
       end).
Proof.
  cbv zeta. split; [|split; [|split; [|split]]].
  1-4: rewrite call_calculatePayout; cbv zeta.
  - intros ->. reflexivity.
  - intros -> Ht Hz. cbn [negb].
    destruct (N.ltb_spec UINT256_MAX (totalPool (market_at w marketId)));
      [lia|].
    destruct Hz as [-> | ->]; [reflexivity|].
    rewrite orb_true_r. reflexivity.
  - intros -> Hs Hp Hm. cbn [negb].
    apply N.eqb_neq in Hs as Hs', Hp as Hp'. rewrite Hs', Hp'. cbn [orb].
    destruct (N.ltb_spec UINT256_MAX (totalPool (market_at w marketId)));
      [nia|].
    destruct (N.ltb_spec UINT256_MAX
                (winningStake w marketId user *
                 totalPool (market_at w marketId))); [lia|reflexivity].
  - intros -> [Ht | (Hs & Hp & Hm)]; cbn [negb].
    + apply N.ltb_lt in Ht. rewrite Ht. reflexivity.
    + destruct (N.ltb_spec UINT256_MAX (totalPool (market_at w marketId)));
        [reflexivity|].
      apply N.eqb_neq in Hs, Hp. rewrite Hs, Hp. cbn [orb].
      apply N.ltb_lt in Hm. rewrite Hm. reflexivity.
  - intros r <-. unfold call.
    destruct (calculatePayout_view marketId user w) as [[p ->]|[e ->]];
      reflexivity.
Qed.

(** ** Payouts never exceed the pool *)

Lemma div_add_le a b c : c <> 0 -> a / c + b / c <= (a + b) / c.
Proof.
  intros Hc. apply N.div_le_lower_bound; [assumption|].
  pose proof (N.Div0.mul_div_le a c). pose proof (N.Div0.mul_div_le b c). lia.
Qed.

Lemma sumN_floor_le (s : address -> N) total pool l :
  pool <> 0 ->
  sumN (map (fun a => s a * total / pool) l) <= sumN (map s l) * total / pool.
Proof.
  intros Hp. induction l as [|a l IH]; [cbn; apply N.le_0_l|].
  cbn [map]. rewrite !sumN_cons.
  etrans; [apply N.add_le_mono_l, IH|].
  etrans; [apply div_add_le, Hp|].
  apply N.Div0.div_le_mono. lia.
Qed.

Lemma winningStake_sum w marketId l :
  wf w -> NoDup l ->
  sumN (map (winningStake w marketId) l) <= winningPool (market_at w marketId).
Proof.
  intros Hwf Hl. unfold winningStake, winningPool.
  destruct (outcomeYes (market_at w marketId)).
  - apply (wf_yesStakes w Hwf); assumption.
  - apply (wf_noStakes w Hwf); assumption.
Qed.

Lemma calculatePayout_le marketId user w p :
  call (calculatePayout marketId user) w = inr p ->
  p <= winningStake w marketId user * totalPool (market_at w marketId)
       / winningPool (market_at w marketId).
Proof.
  intros Hp. destruct (N.eq_dec p 0) as [->|Hp0]; [apply N.le_0_l|].
  destruct (calculatePayout_positive _ _ _ _ Hp Hp0) as (_ & _ & _ & ->).
  reflexivity.
Qed.

(** C4. On a resolved market whose winning pool is not zero, the stakes of
    any set of accounts on the winning side sum to at most the winning
    pool, so the sum of [floor(stake * total / winningPool)] over them is
    at most [total = yesPool + noPool]; the gross payouts that
    [calculatePayout] computes for them therefore never exceed the escrowed
    pool, and what is left over (the dust) is not negative. *)
Theorem payouts_within_pool w marketId accounts :
  reachable w ->
  NoDup accounts ->
  resolved (market_at w marketId) = true ->
  winningPool (market_at w marketId) <> 0 ->
  let mk := market_at w marketId in
  sumN (map (winningStake w marketId) accounts) <= winningPool mk /\
  sumN (map (fun a => winningStake w marketId a * totalPool mk / winningPool mk)
          accounts) <= totalPool mk /\
  forall payouts,
    Forall2 (fun a p => call (calculatePayout marketId a) w = inr p)
      accounts payouts ->
    exists dust, sumN payouts + dust = totalPool mk.
Proof.
  intros Hreach Hnd Hr Hp. cbv zeta.
  pose proof (reachable_wf w Hreach) as Hwf.
  pose proof (winningStake_sum w marketId accounts Hwf Hnd) as Hsum.
  assert (Hfloor :
    sumN (map (fun a => winningStake w marketId a *
                        totalPool (market_at w marketId) /
                        winningPool (market_at w marketId)) accounts)
    <= totalPool (market_at w marketId)).
  { etrans; [apply sumN_floor_le, Hp|].
    etrans; [apply N.Div0.div_le_mono, N.mul_le_mono_r, Hsum|].
    rewrite N.mul_comm, N.div_mul by assumption. reflexivity. }
  split; [assumption|]. split; [assumption|].
  intros payouts Hall.
  assert (Hle : sumN payouts <=
    sumN (map (fun a => winningStake w marketId a *
                        totalPool (market_at w marketId) /
                        winningPool (market_at w marketId)) accounts)).
  { clear -Hall. induction Hall as [|a p l ps Hap _ IH]; [reflexivity|].
    cbn [map]. rewrite !sumN_cons. apply calculatePayout_le in Hap. lia. }
  exists (totalPool (market_at w marketId) - sumN payouts). lia.
Qed.

(** ** Resolution, exactly once *)

Lemma resolveMarket_succeeds env marketId outcome w :
  msg_sender env = owner w ->
  deadline (market_at w marketId) <> 0 ->
  resolved (market_at w marketId) = false ->
  deadline (market_at w marketId) <= block_timestamp env ->
  transact env (ResolveMarket marketId outcome) w =
  (set_events (events w ++ [MarketResolved marketId outcome])
     (store_market marketId
        (with_resolution outcome (market_at w marketId)) w),
   Success).
Proof.
  intros Ho Hd Hr Hn. unfold transact; cbn [dispatch].
  destruct (resolveMarket env marketId outcome w) as [[] w'|e w'] eqn:E.
  - apply resolveMarket_success in E as (_ & _ & _ & _ & ->). reflexivity.
  - exfalso. unfold resolveMarket in E. failure_of E.
Qed.

(** C5. [resolveMarket(marketId, outcomeYes)] is owner-only: any other
    caller fails [Unauthorized]. It succeeds only on an existing,
    unresolved market whose deadline has been reached, and fails
    [MarketNotEnded] (the spec's NotYetEnded) while the current time is
    strictly before the deadline. It succeeds exactly once. Once: the
    owner's call on an existing, unresolved market at or after the
    deadline does succeed, for either outcome, and sets [resolved] and the
    outcome flag, leaving everything else as it was. Not twice: after a
    success, whatever transactions follow, the market stays resolved with
    the outcome passed at that call, and every repeated call fails, with
    [MarketAlreadyResolved] when the owner makes it. *)
Theorem resolveMarket_once env marketId outcome w :
  reachable w ->
  (msg_sender env <> owner w ->
   transact env (ResolveMarket marketId outcome) w = (w, Failed Unauthorized)) /\
  (snd (transact env (ResolveMarket marketId outcome) w) = Success ->
   msg_sender env = owner w /\
   exists_market w marketId /\
   resolved (market_at w marketId) = false /\
   deadline (market_at w marketId) <= block_timestamp env) /\
  (msg_sender env = owner w ->
   exists_market w marketId ->
   resolved (market_at w marketId) = false ->
   block_timestamp env < deadline (market_at w marketId) ->
   transact env (ResolveMarket marketId outcome) w =
   (w, Failed MarketNotEnded)) /\
  (msg_sender env = owner w ->
   exists_market w marketId ->
   resolved (market_at w marketId) = false ->
   deadline (market_at w marketId) <= block_timestamp env ->
   transact env (ResolveMarket marketId outcome) w =
   (set_events (events w ++ [MarketResolved marketId outcome])
      (store_market marketId
         (with_resolution outcome (market_at w marketId)) w),
    Success)) /\
  (snd (transact env (ResolveMarket marketId outcome) w) = Success ->
   forall txs,
     let w' := run txs (fst (transact env (ResolveMarket marketId outcome) w)) in
     resolved (market_at w' marketId) = true /\
     outcomeYes (market_at w' marketId) = outcome /\
     forall env' outcome',
       transact env' (ResolveMarket marketId outcome') w' =
       (w', Failed (if msg_sender env' =? owner w'
                    then MarketAlreadyResolved else Unauthorized))).
Proof.
  intros Hreach. pose proof (reachable_wf w Hreach) as Hwf.
  split; [|split; [|split; [|split]]].
  - apply resolveMarket_Unauthorized.
  - intros Hs.
    apply transact_success, dispatch_success, resolveMarket_success in Hs.
    destruct Hs as (Ho & Hd & Hr & Hn & _).
    split; [assumption|]. split; [apply wf_deadline_exists; assumption|].
    split; assumption.
  - intros Ho Hex Hr Hn. apply resolveMarket_NotEnded; try assumption.
    apply (wf_present w Hwf). assumption.
  - intros Ho Hex Hr Hn. apply resolveMarket_succeeds; try assumption.
    apply (wf_present w Hwf). assumption.
  - intros Hs txs. cbv zeta.
    pose proof (wf_transact env (ResolveMarket marketId outcome) w Hwf) as Hwf1.
    apply transact_success, dispatch_success, resolveMarket_success in Hs.
    destruct Hs as (_ & _ & _ & _ & Hw1).
    set (w1 := fst (transact env (ResolveMarket marketId outcome) w)) in *.
    assert (Hm1 : market_at w1 marketId =
                  with_resolution outcome (market_at w marketId)).
    { rewrite Hw1. unfold market_at; cbn [markets].
      rewrite lookup_insert_eq. reflexivity. }
    assert (Hr1 : resolved (market_at w1 marketId) = true)
      by (rewrite Hm1; reflexivity).
    pose proof (wf_run txs w1 Hwf1) as Hwf2.
    rewrite (resolved_frozen_run txs w1 marketId Hwf1 Hr1).
    split; [assumption|]. split; [rewrite Hm1; reflexivity|].
    intros env' outcome'.
    destruct (N.eqb_spec (msg_sender env') (owner (run txs w1))) as [Ho|Ho].
    + assert (Hr2 : resolved (market_at (run txs w1) marketId) = true)
        by (rewrite resolved_frozen_run; assumption).
      apply resolveMarket_AlreadyResolved; try assumption.
      apply (wf_present _ Hwf2), wf_resolved_exists; assumption.
    + apply resolveMarket_Unauthorized. assumption.
Qed.

(** ** Betting *)

(** C6. [placeBet(marketId, amount, side)] succeeds only when the market
    exists, is unresolved, the current time is strictly before the
    deadline, [amount] is at least [minBetSize], and [amount] is at most
    [maxBetSize] unless [maxBetSize] is 0, which disables the upper bound.
    Once the current time has reached the deadline it fails [MarketEnded]
    (the spec's AlreadyEnded) even though the market is unresolved. On
    success the pool of the chosen side and the caller's stake on that side
    each grow by exactly [amount], and the other side is untouched. *)
Theorem placeBet_guarded env marketId amount isYes w :
  reachable w ->
  let mk := market_at w marketId in
  let who := msg_sender env in
  let w' := fst (transact env (PlaceBet marketId amount isYes) w) in
  (snd (transact env (PlaceBet marketId amount isYes) w) = Success ->
   exists_market w marketId /\
   resolved mk = false /\
   block_timestamp env < deadline mk /\
   minBetSize w <= amount /\
   (maxBetSize w = 0 \/ amount <= maxBetSize w) /\
   yesPool (market_at w' marketId) = yesPool mk + (if isYes then amount else 0) /\
   noPool (market_at w' marketId) = noPool mk + (if isYes then 0 else amount) /\
   yesStake_at w' marketId who =
     yesStake_at w marketId who + (if isYes then amount else 0) /\
   noStake_at w' marketId who =
     noStake_at w marketId who + (if isYes then 0 else amount)) /\
  (exists_market w marketId ->
   resolved mk = false ->
   deadline mk <= block_timestamp env ->
   transact env (PlaceBet marketId amount isYes) w = (w, Failed MarketEnded)).
Proof.
  intros Hreach. pose proof (reachable_wf w Hreach) as Hwf. cbv zeta.
  split.
  - intros Hs. apply transact_success, dispatch_success, placeBet_success in Hs.
    destruct Hs as (He & Hd & Hr & Hnow & Hlo & Hhi & t' & Ht & E).
    split; [apply wf_deadline_exists; assumption|].
    do 4 (split; [assumption|]).
    destruct isYes; destruct E as (_ & _ & ->);
      unfold market_at, yesStake_at, noStake_at;
      cbn [markets yesStakes noStakes];
      rewrite !lookup_insert_eq; cbn [default from_option id with_yesPool
                                       with_noPool yesPool noPool];
      repeat split; lia.
  - intros Hex Hr Hn. apply placeBet_MarketEnded; try assumption.
    + apply (wf_unlocked w Hwf).
    + apply (wf_present w Hwf). assumption.
Qed.

(** ** All or nothing *)

(** What a reverting call had written when it stopped. The four
    operations below check everything before their first write. *)

Lemma createMarket_revert env q dl w e w1 :
  createMarket env q dl w = Revert e w1 ->
  w1 = w /\
  ((e = DeadlineMustBeFuture /\ dl <= block_timestamp env) \/
   (e = PanicOverflow /\ UINT256_MAX < marketCount w + 1)).
Proof.
  intros E. unfold createMarket in E. run_hyp E; bool_to_prop.
  all: inversion E; subst; split; [reflexivity|]; auto.
Qed.

Lemma resolveMarket_revert env marketId outcome w e w1 :
  resolveMarket env marketId outcome w = Revert e w1 ->
  w1 = w /\
  ((e = Unauthorized /\ msg_sender env <> owner w) \/
   (e = MarketDoesNotExist /\ deadline (market_at w marketId) = 0) \/
   (e = MarketAlreadyResolved /\ resolved (market_at w marketId) = true) \/
   (e = MarketNotEnded /\
    block_timestamp env < deadline (market_at w marketId))).
Proof.
  intros E. unfold resolveMarket in E. run_hyp E; bool_to_prop.
  all: inversion E; subst; split; [reflexivity|]; auto 6.
Qed.

Lemma setFee_revert env newFeeBps w e w1 :
  setFee env newFeeBps w = Revert e w1 ->
  w1 = w /\
  ((e = Unauthorized /\ msg_sender env <> owner w) \/
   (e = RequireFailed "Fee too high" /\ MAX_FEE_BPS < newFeeBps)).
Proof.
  intros E. unfold setFee in E. run_hyp E; bool_to_prop.
  all: inversion E; subst; split; [reflexivity|]; auto.
Qed.

Lemma setBetLimits_revert env lo hi w e w1 :
  setBetLimits env lo hi w = Revert e w1 ->
  w1 = w /\ e = Unauthorized /\ msg_sender env <> owner w.
Proof.
  intros E. unfold setBetLimits in E. run_hyp E; bool_to_prop.
  all: inversion E; subst; auto.
Qed.

(** [withdrawFees] has zeroed the fee balance when the token refuses the
    transfer. *)
Lemma withdrawFees_revert env to w e w1 :
  withdrawFees env to w = Revert e w1 ->
  (w1 = w /\
   ((e = Unauthorized /\ msg_sender env <> owner w) \/
    (e = NoWinnings /\ accumulatedFees w = 0))) \/
  (e = TransferFailed /\ accumulatedFees w <> 0 /\
   w1 = set_accumulatedFees 0 w /\
   safeTransfer (self w) to (accumulatedFees w) (token w) = None).
Proof.
  intros E. unfold withdrawFees in E. run_hyp E; simpl_world; bool_to_prop.
  all: inversion E; subst; auto 7.
Qed.

(** [betYes] and [betNo] have taken the lock when a guard or the token
    refuses the bet, and have pulled the tokens as well when a pool or a
    stake overflows. *)
Lemma placeBet_revert env marketId amount isYes w e w1 :
  dispatch env (PlaceBet marketId amount isYes) w = Revert e w1 ->
  (e = ReentrantCall /\ entered w = true /\ w1 = w) \/
  (entered w = false /\
   (w1 = set_entered true w \/
    (e = PanicOverflow /\ entered w1 = true /\
     exists t',
       safeTransferFrom (self w) (msg_sender env) (self w) amount (token w)
       = Some t' /\
       token w1 = t'))).
Proof.
  intros E. cbn [dispatch] in E.
  destruct isYes; unfold betYes, betNo, _placeBet in E.
  all: run_hyp E; simpl_world; bool_to_prop.
  all: inversion E; subst; auto.
  all: right; split; [reflexivity|]; right.
  all: split; [reflexivity|]; split; [reflexivity|].
  all: eexists; split; [eassumption|reflexivity].
Qed.

(** [claim] has taken the lock when a guard refuses it or the payout
    cannot be computed, and has marked the caller as paid as well when the
    fee arithmetic overflows or the token refuses the transfer. *)
Lemma claim_revert env marketId w e w1 :
  claim env marketId w = Revert e w1 ->
  (e = ReentrantCall /\ entered w = true /\ w1 = w) \/
  (entered w = false /\
   (w1 = set_entered true w \/
    ((e = PanicOverflow \/ e = TransferFailed) /\ entered w1 = true /\
     claimed_at w marketId (msg_sender env) = false /\
     claimed_at w1 marketId (msg_sender env) = true))).
Proof.
  intros E. unfold claim in E.
  run_hyp E; simpl_world; bool_to_prop.
  all: repeat match goal with
         | H : calculatePayout ?m ?u ?w0 = _ |- _ =>
             destruct (calculatePayout_view m u w0) as [[? Hv]|[? Hv]];
             rewrite Hv in H; inversion H; subst; clear H Hv
         end.
  all: simpl_world; inversion E; subst; auto.
  all: try match goal with
         | H : BPS_DENOMINATOR = 0 |- _ => discriminate H
         end.
  all: right; split; [reflexivity|]; right.
  all: split; [auto|]; split; [reflexivity|]; split; [assumption|].
  all: unfold claimed_at; cbn [claimed set_claimed set_accumulatedFees].
  all: rewrite lookup_insert_eq; reflexivity.
Qed.

(** C7. Every operation of the engine ([createMarket], [placeBet],
    [resolveMarket], [claim], [withdrawFees], [setFee], [setBetLimits]) is
    all-or-nothing: from any starting state, when it fails with any error,
    the storage, the token ledger and the event log are exactly what they
    were. For [createMarket], [resolveMarket], [setFee] and [setBetLimits]
    this is so because each checks everything before its first write. The
    other three can stop after they have written (the lock, the fee
    balance, the tokens pulled, the claimed flag) and it is the revert of
    the transaction that undoes those writes. In particular [createMarket]
    with a deadline that is not in the future fails [DeadlineMustBeFuture]
    and leaves the market counter unchanged. *)
Theorem failure_changes_nothing :
  (forall env op w e,
     snd (transact env op w) = Failed e -> fst (transact env op w) = w) /\
  (forall env op w e w1,
     dispatch env op w = Revert e w1 ->
     transact env op w = (w, Failed e) /\
     match op with
     | CreateMarket _ dl =>
         w1 = w /\
         ((e = DeadlineMustBeFuture /\ dl <= block_timestamp env) \/
          (e = PanicOverflow /\ UINT256_MAX < marketCount w + 1))
     | ResolveMarket marketId _ =>
         w1 = w /\
         ((e = Unauthorized /\ msg_sender env <> owner w) \/
          (e = MarketDoesNotExist /\ deadline (market_at w marketId) = 0) \/
          (e = MarketAlreadyResolved /\
           resolved (market_at w marketId) = true) \/
          (e = MarketNotEnded /\
           block_timestamp env < deadline (market_at w marketId)))
     | SetFee newFeeBps =>
         w1 = w /\
         ((e = Unauthorized /\ msg_sender env <> owner w) \/
          (e = RequireFailed "Fee too high" /\ MAX_FEE_BPS < newFeeBps))
     | SetBetLimits _ _ =>
         w1 = w /\ e = Unauthorized /\ msg_sender env <> owner w
     | WithdrawFees to =>
         (w1 = w /\
          ((e = Unauthorized /\ msg_sender env <> owner w) \/
           (e = NoWinnings /\ accumulatedFees w = 0))) \/
         (e = TransferFailed /\ accumulatedFees w <> 0 /\
          w1 = set_accumulatedFees 0 w /\
          safeTransfer (self w) to (accumulatedFees w) (token w) = None)
     | PlaceBet _ amount _ =>
         (e = ReentrantCall /\ entered w = true /\ w1 = w) \/
         (entered w = false /\
          (w1 = set_entered true w \/
           (e = PanicOverflow /\ entered w1 = true /\
            exists t',
              safeTransferFrom (self w) (msg_sender env) (self w) amount
                (token w) = Some t' /\
              token w1 = t')))
     | Claim marketId =>
         (e = ReentrantCall /\ entered w = true /\ w1 = w) \/
         (entered w = false /\
          (w1 = set_entered true w \/
           ((e = PanicOverflow \/ e = TransferFailed) /\ entered w1 = true /\
            claimed_at w marketId (msg_sender env) = false /\
            claimed_at w1 marketId (msg_sender env) = true)))
     end) /\
  (forall env q dl w,
     dl <= block_timestamp env ->
     transact env (CreateMarket q dl) w = (w, Failed DeadlineMustBeFuture) /\
     marketCount (fst (transact env (CreateMarket q dl) w)) = marketCount w).
Proof.
  split; [|split].
  - intros env op w e. unfold transact.
    destruct (dispatch env op w); cbn [fst snd]; [discriminate|reflexivity].
  - intros env op w e w1 E.
    split; [unfold transact; rewrite E; reflexivity|].
    destruct op as [q dl|marketId amount isYes|marketId outcome|marketId
                   |to|newFeeBps|lo hi].
    + cbn [dispatch] in E. unfold ignore, bind in E.
      destruct (createMarket env q dl w) as [id w'|e' w'] eqn:E';
        [discriminate|].
      inversion E; subst. exact (createMarket_revert _ _ _ _ _ _ E').
    + exact (placeBet_revert _ _ _ _ _ _ _ E).
    + exact (resolveMarket_revert _ _ _ _ _ _ E).
    + exact (claim_revert _ _ _ _ _ E).
    + exact (withdrawFees_revert _ _ _ _ _ E).
    + exact (setFee_revert _ _ _ _ _ E).
    + exact (setBetLimits_revert _ _ _ _ _ _ E).
  - intros env q dl w Hd.
    rewrite createMarket_DeadlineMustBeFuture by assumption.
    split; reflexivity.
Qed.

(** ** Pool accounting *)

Lemma exec_totalPool w tx marketId :
  wf w ->
  totalPool (market_at (exec w tx) marketId) =
  totalPool (market_at w marketId) + accepted_by marketId w tx.
Proof.
  intros Hwf. destruct tx as [env op]. unfold exec, accepted_by.
  cbn [fst snd].
  destruct (snd (transact env op w)) eqn:Hs.
  - pose proof Hs as Hs'.
    apply transact_success, dispatch_success in Hs'.
    set (w' := fst (transact env op w)) in *. clearbody w'.
    destruct op.
    + apply createMarket_success in Hs' as (_ & _ & _ & ->).
      unfold market_at; cbn [markets]. rewrite lookup_insert.
      case_decide; subst; [|lia].
      rewrite (wf_absent w Hwf) by (unfold exists_market; lia).
      reflexivity.
    + apply placeBet_success in Hs'.
      destruct Hs' as (_ & _ & _ & _ & _ & _ & t' & _ & E).
      destruct isYes; destruct E as (_ & _ & ->);
        unfold market_at; cbn [markets]; rewrite lookup_insert;
        (destruct (N.eqb_spec marketId0 marketId) as [->|Hne];
         [rewrite decide_True by reflexivity
         |rewrite decide_False by assumption]);
        unfold totalPool;
        cbn [default from_option id with_yesPool with_noPool yesPool noPool];
        lia.
    + apply resolveMarket_success in Hs' as (_ & _ & _ & _ & ->).
      unfold market_at; cbn [markets]. rewrite lookup_insert.
      case_decide; subst; unfold totalPool;
        cbn [default from_option id with_resolution yesPool noPool]; lia.
    + apply claim_success in Hs'.
      destruct Hs' as (_ & _ & _ & _ & p & t' & _ & _ & _ & _ & _ & _ & ->).
      unfold market_at; cbn [markets]. lia.
    + apply withdrawFees_success in Hs' as (_ & _ & t' & _ & ->).
      unfold market_at; cbn [markets]. lia.
    + apply setFee_success in Hs' as (_ & _ & ->).
      unfold market_at; cbn [markets]. lia.
    + apply setBetLimits_success in Hs' as (_ & ->).
      unfold market_at; cbn [markets]. lia.
  - destruct (transact env op w) as [w' o] eqn:Ht. cbn [snd] in Hs. subst o.
    apply transact_failed in Ht. subst w'. cbn [fst].
    destruct op; try destruct isYes; lia.
Qed.

Lemma run_totalPool txs w marketId :
  wf w ->
  totalPool (market_at (run txs w) marketId) =
  totalPool (market_at w marketId) + accepted marketId txs w.
Proof.
  revert w. induction txs as [|tx txs IH]; intros w Hwf.
  - cbn. lia.
  - cbn [run fold_left accepted]. fold (run txs (exec w tx)).
    rewrite IH by (destruct tx; apply wf_transact; assumption).
    rewrite exec_totalPool by assumption. lia.
Qed.

Lemma exec_pools_grow w tx marketId :
  wf w ->
  yesPool (market_at w marketId) <= yesPool (market_at (exec w tx) marketId) /\
  noPool (market_at w marketId) <= noPool (market_at (exec w tx) marketId).
Proof.
  intros Hwf. destruct tx as [env op]. unfold exec; cbn [fst snd].
  destruct (transact_market env op w marketId Hwf)
    as [->|[(q & dl & _ & Hn & ->)|[(a & _ & _ & _ & ->)|[(a & _ & _ & _ & ->)|
        (o & _ & _ & ->)]]]]; cbn [with_yesPool with_noPool with_resolution
                                   yesPool noPool]; try lia.
  rewrite (market_at_None w marketId) by (apply (wf_absent w Hwf), Hn).
  cbn. lia.
Qed.

(** C8. In every reachable state, that is after any sequence of
    transactions on a freshly constructed contract, [yesPool + noPool] of
    every market equals the sum of all amounts accepted by [placeBet] for
    that market, and neither pool decreases across any further
    transaction. Both hold at all times, hence in particular while the
    market is unresolved. *)
Theorem pools_account_for_bets deployer this (tok : T) lo hi txs marketId :
  let w0 := constructor deployer this tok lo hi in
  let w := run txs w0 in
  yesPool (market_at w marketId) + noPool (market_at w marketId) =
    accepted marketId txs w0 /\
  forall tx,
    yesPool (market_at w marketId) <= yesPool (market_at (exec w tx) marketId) /\
    noPool (market_at w marketId) <= noPool (market_at (exec w tx) marketId).
Proof.
  cbv zeta.
  pose proof (wf_constructor deployer this tok lo hi) as Hwf0.
  split.
  - change (totalPool (market_at (run txs (constructor deployer this tok lo hi))
                         marketId) =
            accepted marketId txs (constructor deployer this tok lo hi)).
    rewrite run_totalPool by assumption. reflexivity.
  - intros tx. apply exec_pools_grow, wf_run, Hwf0.
Qed.

(** ** Reading a market *)

(** C9, as the code has it. [getMarket(id)] never fails and changes
    nothing: it returns the stored fields (question, deadline, resolved,
    outcome, yesPool, noPool) of the market. For an id that no market has,
    these are the zero values, and the call returns the empty question, a
    deadline of 0, both flags false and both pools 0; an existing market
    always has a deadline other than 0. *)
Theorem getMarket_total marketId w :
  let mk := market_at w marketId in
  getMarket marketId w =
    Ok (question mk, deadline mk, resolved mk, outcomeYes mk, yesPool mk,
        noPool mk) w /\
  (reachable w -> exists_market w marketId -> deadline mk <> 0) /\
  (reachable w -> ~ exists_market w marketId ->
   call (getMarket marketId) w = inr (EmptyString, 0, false, false, 0, 0)).
Proof.
  cbv zeta. split; [reflexivity|]. split.
  - intros Hreach. apply (wf_present w (reachable_wf w Hreach)).
  - intros Hreach Hn. unfold call, getMarket, bind, gets, ret.
    rewrite (market_at_None w marketId); [reflexivity|].
    apply (wf_absent w (reachable_wf w Hreach)), Hn.
Qed.

(** ** A market nobody won *)

(** C10. In a resolved market whose winning-side pool is zero (everyone
    staked on the losing side, so the total pool may well be nonzero),
    [calculatePayout] returns 0 for every account; from then on, whatever
    transactions follow, the market record and its pools stay as they are
    and every [claim] on that market, by any account, fails [NoWinnings]:
    the pool stays in custody and no participant can claim it. *)
Theorem no_winner_no_claim w marketId :
  reachable w ->
  resolved (market_at w marketId) = true ->
  winningPool (market_at w marketId) = 0 ->
  (forall user, call (calculatePayout marketId user) w = inr 0) /\
  forall txs env,
    market_at (run txs w) marketId = market_at w marketId /\
    transact env (Claim marketId) (run txs w) = (run txs w, Failed NoWinnings).
Proof.
  intros Hreach Hr Hp. pose proof (reachable_wf w Hreach) as Hwf.
  assert (Hzero : forall w1, wf w1 ->
            market_at w1 marketId = market_at w marketId ->
            forall user, call (calculatePayout marketId user) w1 = inr 0).
  { intros w1 Hwf1 Hm user. rewrite call_calculatePayout. cbv zeta.
    rewrite Hm, Hr, Hp. cbn [negb]. rewrite orb_true_r.
    destruct (N.ltb_spec UINT256_MAX (totalPool (market_at w marketId)))
      as [Hlt|]; [|reflexivity].
    exfalso. destruct (wf_pools w Hwf marketId) as [Hy Hn].
    unfold winningPool, totalPool in *.
    destruct (outcomeYes (market_at w marketId)); lia. }
  split; [apply Hzero; [assumption|reflexivity]|].
  intros txs env.
  pose proof (wf_run txs w Hwf) as Hwf1.
  pose proof (resolved_frozen_run txs w marketId Hwf Hr) as Hm.
  split; [assumption|].
  apply claim_NoWinnings.
  - apply (wf_unlocked _ Hwf1).
  - apply (wf_present _ Hwf1), wf_resolved_exists; [assumption|].
    rewrite Hm. assumption.
  - rewrite Hm. assumption.
  - destruct (claimed_at (run txs w) marketId (msg_sender env)) eqn:Hc;
      [|reflexivity].
    apply (wf_claimed _ Hwf1) in Hc as [_ Hc]. rewrite Hm in Hc.
    contradiction.
  - apply Hzero; assumption.
Qed.

(** * Further properties of the contract *)

(** ** Odds *)

(** [getOdds(marketId)] never divides by zero and never underflows: it
    fails only when [yesPool + noPool] or [yesPool * 100] leaves the 256-bit
    range. Whenever it returns, the two percentages sum to exactly 100: it
    returns (50, 50) when the total pool is 0 (in particular for an id that
    no market has), and [floor(yesPool * 100 / total)] with its complement
    otherwise. *)
Theorem getOdds_sums_to_100 marketId w :
  let mk := market_at w marketId in
  (forall yesPercent noPercent,
     call (getOdds marketId) w = inr (yesPercent, noPercent) ->
     yesPercent + noPercent = 100 /\
     (totalPool mk = 0 -> yesPercent = 50) /\
     (totalPool mk <> 0 -> yesPercent = yesPool mk * 100 / totalPool mk)) /\
  (forall e,
     call (getOdds marketId) w = inl e ->
     e = PanicOverflow /\
     (UINT256_MAX < totalPool mk \/ UINT256_MAX < yesPool mk * 100)) /\
  (totalPool mk <= UINT256_MAX -> yesPool mk * 100 <= UINT256_MAX ->
   exists yesPercent noPercent,
     call (getOdds marketId) w = inr (yesPercent, noPercent)) /\
  (reachable w -> ~ exists_market w marketId ->
   call (getOdds marketId) w = inr (50, 50)).
Proof.
  cbv zeta.
  assert (Hdiv : totalPool (market_at w marketId) <> 0 ->
                 yesPool (market_at w marketId) * 100
                 / totalPool (market_at w marketId) <= 100).
  { intros Hn. unfold totalPool in *.
    etrans; [apply N.Div0.div_le_mono
               with (b := 100 * (yesPool (market_at w marketId) +
                                 noPool (market_at w marketId))); lia|].
    rewrite N.div_mul by assumption. reflexivity. }
  unfold call, getOdds, totalPool in *. unfold_monad. cbv beta iota.
  split; [|split; [|split]].
  - intros y n H.
    repeat (break_hyp H; cbv beta iota in H; try discriminate H);
      bool_to_prop; inversion H; subst; clear H;
      (split; [lia|split; [intros; lia|intros; try lia; try reflexivity]]).
  - intros e H.
    repeat (break_hyp H; cbv beta iota in H; try discriminate H);
      bool_to_prop; inversion H; subst; clear H;
      try (split; [reflexivity|lia]); exfalso; try lia; try congruence.
  - intros Ht Hy.
    repeat (break_goal; cbv beta iota); bool_to_prop; eauto; exfalso; try lia;
      try congruence.
  - intros Hreach Hn.
    rewrite (market_at_None w marketId)
      by (apply (wf_absent w (reachable_wf w Hreach)), Hn).
    reflexivity.
Qed.

(** ** Fees *)

Lemma onlyOwner_Unauthorized {A} env (body : M T A) w :
  msg_sender env <> owner w -> onlyOwner env body w = Revert Unauthorized w.
Proof.
  intros Ho. unfold onlyOwner. unfold_monad. cbv beta iota.
  apply N.eqb_neq in Ho. rewrite Ho. reflexivity.
Qed.

(** [withdrawFees(to)] is owner-only and fails [NoWinnings] when nothing
    has accumulated. On success it transfers the entire accumulated amount
    to [to], resets the accumulator to zero and touches nothing else of the
    ledger, so that a second withdrawal right after it fails [NoWinnings]. *)
Theorem withdrawFees_drains env to w :
  (msg_sender env <> owner w ->
   transact env (WithdrawFees to) w = (w, Failed Unauthorized)) /\
  (msg_sender env = owner w -> accumulatedFees w = 0 ->
   transact env (WithdrawFees to) w = (w, Failed NoWinnings)) /\
  (forall w',
     transact env (WithdrawFees to) w = (w', Success) ->
     msg_sender env = owner w /\
     accumulatedFees w <> 0 /\
     safeTransfer (self w) to (accumulatedFees w) (token w) = Some (token w') /\
     accumulatedFees w' = 0 /\
     markets w' = markets w /\ yesStakes w' = yesStakes w /\
     noStakes w' = noStakes w /\ claimed w' = claimed w /\
     platformFeeBps w' = platformFeeBps w /\
     events w' = events w ++ [FeesWithdrawn to (accumulatedFees w)] /\
     forall env' to',
       transact env' (WithdrawFees to') w' =
       (w', Failed (if msg_sender env' =? owner w'
                    then NoWinnings else Unauthorized))).
Proof.
  split; [|split].
  - intros Ho. unfold transact; cbn [dispatch]. unfold withdrawFees.
    rewrite onlyOwner_Unauthorized by assumption. reflexivity.
  - intros Ho Hz. unfold transact; cbn [dispatch].
    destruct (withdrawFees env to w) as [[] w'|e w'] eqn:E.
    + apply withdrawFees_success in E as (_ & ? & _). contradiction.
    + unfold withdrawFees in E. failure_of E.
  - intros w' H. apply transact_pair in H as [Hw Hs].
    apply transact_success, dispatch_success, withdrawFees_success in Hs.
    rewrite Hw in Hs. destruct Hs as (Ho & Hf & t' & Ht & ->).
    cbn [accumulatedFees token markets yesStakes noStakes claimed
         platformFeeBps events owner].
    do 10 (split; [first [assumption|reflexivity]|]).
    intros env' to'. unfold transact; cbn [dispatch].
    destruct (N.eqb_spec (msg_sender env') (owner w)) as [Ho'|Ho'].
    + match goal with
      | |- context [withdrawFees env' to' ?w1] =>
          destruct (withdrawFees env' to' w1) as [[] w2|e w2] eqn:E
      end.
      * apply withdrawFees_success in E as (_ & E & _).
        cbn [accumulatedFees] in E. contradiction.
      * unfold withdrawFees in E. failure_of E.
    + unfold withdrawFees. rewrite onlyOwner_Unauthorized by assumption.
      reflexivity.
Qed.

Lemma fee_cap_step env op w :
  platformFeeBps w <= MAX_FEE_BPS ->
  platformFeeBps (fst (transact env op w)) <= MAX_FEE_BPS.
Proof.
  intros Hcap. unfold transact.
  destruct (dispatch env op w) as [u w'|] eqn:E; [|assumption].
  apply dispatch_success in E. cbn [fst].
  destruct op.
  - apply createMarket_success in E as (_ & _ & _ & ->). assumption.
  - apply placeBet_success in E.
    destruct E as (_ & _ & _ & _ & _ & _ & t' & _ & E).
    destruct isYes; destruct E as (_ & _ & ->); assumption.
  - apply resolveMarket_success in E as (_ & _ & _ & _ & ->). assumption.
  - apply claim_success in E.
    destruct E as (_ & _ & _ & _ & p & t' & _ & _ & _ & _ & _ & _ & ->).
    assumption.
  - apply withdrawFees_success in E as (_ & _ & t' & _ & ->). assumption.
  - apply setFee_success in E as (_ & ? & ->). assumption.
  - apply setBetLimits_success in E as (_ & ->). assumption.
Qed.

Lemma reachable_fee_cap w : reachable w -> platformFeeBps w <= MAX_FEE_BPS.
Proof.
  induction 1; [cbn; unfold MAX_FEE_BPS; lia|apply fee_cap_step; assumption].
Qed.

(** [setFee(newFeeBps)] is owner-only and rejects a fee above
    [MAX_FEE_BPS = 1000] with "Fee too high"; any fee up to the cap is
    accepted and becomes the platform fee, with the old and the new value
    logged. As the fee starts at 200 and nothing else writes it, the fee is
    at most 1000 bps in every reachable state. *)
Theorem setFee_capped env newFeeBps w :
  (msg_sender env <> owner w ->
   transact env (SetFee newFeeBps) w = (w, Failed Unauthorized)) /\
  (msg_sender env = owner w -> MAX_FEE_BPS < newFeeBps ->
   transact env (SetFee newFeeBps) w =
   (w, Failed (RequireFailed "Fee too high"))) /\
  (msg_sender env = owner w -> newFeeBps <= MAX_FEE_BPS ->
   snd (transact env (SetFee newFeeBps) w) = Success /\
   platformFeeBps (fst (transact env (SetFee newFeeBps) w)) = newFeeBps /\
   events (fst (transact env (SetFee newFeeBps) w)) =
     events w ++ [FeeUpdated (platformFeeBps w) newFeeBps]) /\
  (reachable w -> platformFeeBps w <= MAX_FEE_BPS).
Proof.
  split; [|split; [|split]].
  - intros Ho. unfold transact; cbn [dispatch]. unfold setFee.
    rewrite onlyOwner_Unauthorized by assumption. reflexivity.
  - intros Ho Hbig. unfold transact; cbn [dispatch].
    destruct (setFee env newFeeBps w) as [[] w'|e w'] eqn:E.
    + apply setFee_success in E as (_ & ? & _). lia.
    + unfold setFee in E. failure_of E.
  - intros Ho Hok. unfold transact; cbn [dispatch].
    destruct (setFee env newFeeBps w) as [[] w'|e w'] eqn:E.
    + apply setFee_success in E as (_ & _ & ->). cbn. auto.
    + exfalso. unfold setFee in E. failure_of E.
  - apply reachable_fee_cap.
Qed.

(** In every reachable state a successful [claim] splits the gross payout
    [p] between the caller and the fee accumulator with nothing lost: the
    caller is transferred [p - fee], the accumulator grows by [fee], and,
    the fee being capped at 10%, the caller receives at least [p - p / 10]. *)
Theorem claim_keeps_nine_tenths env marketId w w' :
  reachable w ->
  transact env (Claim marketId) w = (w', Success) ->
  exists p net,
    call (calculatePayout marketId (msg_sender env)) w = inr p /\
    safeTransfer (self w) (msg_sender env) net (token w) = Some (token w') /\
    net + (accumulatedFees w' - accumulatedFees w) = p /\
    accumulatedFees w <= accumulatedFees w' /\
    p - p / 10 <= net /\ net <= p.
Proof.
  intros Hreach H. apply transact_pair in H as [Hw Hs].
  apply transact_success, dispatch_success, claim_success in Hs.
  rewrite Hw in Hs.
  destruct Hs as (_ & _ & _ & _ & p & t' & Hp & _ & _ & Hle & _ & Ht & ->).
  pose proof (reachable_fee_cap w Hreach) as Hcap.
  unfold MAX_FEE_BPS, BPS_DENOMINATOR in *.
  set (fee := p * platformFeeBps w / 10000) in *.
  assert (Hfee : fee <= p / 10).
  { unfold fee.
    etrans; [apply N.Div0.div_le_mono with (b := p * 1000); nia|].
    replace 10000 with (1000 * 10) by reflexivity.
    rewrite <- N.Div0.div_div, N.div_mul by lia. reflexivity. }
  exists p, (p - fee). cbn [accumulatedFees token].
  repeat split; try assumption; lia.
Qed.

(** ** The quoted net payout *)

Lemma call_calculatePayoutAfterFee marketId user w :
  call (calculatePayoutAfterFee marketId user) w =
  match call (calculatePayout marketId user) w with
  | inl e => inl e
  | inr p =>
      if p =? 0 then inr 0
      else if UINT256_MAX <? p * platformFeeBps w then inl PanicOverflow
      else if p <? p * platformFeeBps w / BPS_DENOMINATOR then inl PanicOverflow
      else inr (p - p * platformFeeBps w / BPS_DENOMINATOR)
  end.
Proof.
  unfold call at 1 2, calculatePayoutAfterFee, bind at 1.
  destruct (calculatePayout_view marketId user w) as [[p ->]|[e ->]];
    [|reflexivity].
  unfold_monad. cbv beta iota.
  repeat (break_goal; cbv beta iota); bool_to_prop; try reflexivity;
    try lia; try discriminate.
Qed.

(** [calculatePayoutAfterFee(marketId, user)] quotes what [claim] pays:
    whenever a claim succeeds, the quote taken just before it is exactly
    the amount transferred to the caller. The quote is 0 when the gross
    payout is 0, and never more than the gross payout. *)
Theorem calculatePayoutAfterFee_is_claimed env marketId w :
  (forall w',
     transact env (Claim marketId) w = (w', Success) ->
     exists net,
       call (calculatePayoutAfterFee marketId (msg_sender env)) w = inr net /\
       safeTransfer (self w) (msg_sender env) net (token w) = Some (token w') /\
       events w' = events w ++ [Claimed marketId (msg_sender env) net]) /\
  (call (calculatePayout marketId (msg_sender env)) w = inr 0 ->
   call (calculatePayoutAfterFee marketId (msg_sender env)) w = inr 0) /\
  (forall p net,
     call (calculatePayout marketId (msg_sender env)) w = inr p ->
     call (calculatePayoutAfterFee marketId (msg_sender env)) w = inr net ->
     net <= p).
Proof.
  split; [|split].
  - intros w' H. apply transact_pair in H as [Hw Hs].
    apply transact_success, dispatch_success, claim_success in Hs.
    rewrite Hw in Hs.
    destruct Hs as (_ & _ & _ & _ & p & t' & Hp & Hp0 & Hm & Hle & _ & Ht & ->).
    exists (p - p * platformFeeBps w / BPS_DENOMINATOR).
    cbn [token events]. split; [|split; [assumption|reflexivity]].
    rewrite call_calculatePayoutAfterFee, Hp.
    apply N.eqb_neq in Hp0. rewrite Hp0.
    destruct (N.ltb_spec UINT256_MAX (p * platformFeeBps w)); [lia|].
    destruct (N.ltb_spec p (p * platformFeeBps w / BPS_DENOMINATOR)); [lia|].
    reflexivity.
  - intros Hp. rewrite call_calculatePayoutAfterFee, Hp. reflexivity.
  - intros p net Hp. rewrite call_calculatePayoutAfterFee, Hp. intros H.
    repeat (break_hyp H; try discriminate H); inversion H; subst;
      [apply N.le_0_l|apply N.le_sub_l].
Qed.

(** ** Bet limits *)

(** [setBetLimits(min, max)] is owner-only and validates nothing: the
    owner's call always succeeds and stores both values as given, changing
    nothing else. In particular a nonzero maximum below the minimum is
    accepted, and in such a state no bet of any amount on any market
    succeeds. *)
Theorem setBetLimits_unchecked env lo hi w :
  (msg_sender env <> owner w ->
   transact env (SetBetLimits lo hi) w = (w, Failed Unauthorized)) /\
  (msg_sender env = owner w ->
   transact env (SetBetLimits lo hi) w = (set_betLimits lo hi w, Success)) /\
  (0 < maxBetSize w -> maxBetSize w < minBetSize w ->
   forall env' marketId amount isYes,
     snd (transact env' (PlaceBet marketId amount isYes) w) <> Success).
Proof.
  split; [|split].
  - intros Ho. unfold transact; cbn [dispatch]. unfold setBetLimits.
    rewrite onlyOwner_Unauthorized by assumption. reflexivity.
  - intros Ho. unfold transact; cbn [dispatch].
    unfold setBetLimits, onlyOwner. unfold_monad. cbv beta iota.
    apply N.eqb_eq in Ho. rewrite Ho. reflexivity.
  - intros Hpos Hlt env' marketId amount isYes Hs.
    apply transact_success, dispatch_success, placeBet_success in Hs.
    destruct Hs as (_ & _ & _ & _ & Hlo & Hhi & _). lia.
Qed.

(** ** Creating markets *)

Ltac step_cases E :=
  apply dispatch_success in E;
  match type of E with
  | match ?op with _ => _ end => destruct op
  end;
  [ apply createMarket_success in E as (? & ? & _ & ->)
  | apply placeBet_success in E;
    destruct E as (? & ? & ? & ? & ? & ? & ? & ? & E);
    match type of E with
    | if ?b then _ else _ => destruct b
    end;
    destruct E as (? & ? & ->)
  | apply resolveMarket_success in E as (? & ? & ? & ? & ->)
  | apply claim_success in E;
    destruct E as (? & ? & ? & ? & ? & ? & ? & ? & ? & ? & ? & ? & ->)
  | apply withdrawFees_success in E as (? & ? & ? & ? & ->)
  | apply setFee_success in E as (? & ? & ->)
  | apply setBetLimits_success in E as (? & ->) ].

Lemma exec_marketCount w tx :
  marketCount (exec w tx) = marketCount w + creates w tx.
Proof.
  destruct tx as [env op]. unfold exec, creates. cbn [fst snd].
  destruct (snd (transact env op w)) eqn:Hs.
  - apply transact_success in Hs.
    set (w' := fst (transact env op w)) in *. clearbody w'.
    step_cases Hs; cbn [marketCount]; lia.
  - destruct (transact env op w) as [w' o] eqn:Ht. cbn [snd] in Hs. subst o.
    apply transact_failed in Ht. subst w'. cbn [fst].
    destruct op; lia.
Qed.

Lemma run_marketCount txs w :
  marketCount (run txs w) = marketCount w + created txs w.
Proof.
  revert w. induction txs as [|tx txs IH]; intros w; [cbn; lia|].
  cbn [run fold_left created]. fold (run txs (exec w tx)).
  rewrite IH, exec_marketCount. lia.
Qed.

(** [createMarket(question, deadline)] can be called by anyone. With a
    deadline in the future it hands out the next id, [marketCount + 1],
    stores an open market with empty pools under it and leaves every other
    market, every stake and every claim flag as they were; it fails with an
    overflow panic only when the counter is at its maximum. Ids are thus
    sequential from 1: after any sequence of transactions on a fresh
    contract, [marketCount] is the number of successful [createMarket]
    calls. *)
Theorem createMarket_sequential env q dl w :
  (block_timestamp env < dl -> marketCount w < UINT256_MAX ->
   exists w',
     createMarket env q dl w = Ok (marketCount w + 1) w' /\
     marketCount w' = marketCount w + 1 /\
     market_at w' (marketCount w + 1) = mkMarket q dl false false 0 0 /\
     (forall id, id <> marketCount w + 1 -> market_at w' id = market_at w id) /\
     yesStakes w' = yesStakes w /\ noStakes w' = noStakes w /\
     claimed w' = claimed w) /\
  (block_timestamp env < dl -> marketCount w = UINT256_MAX ->
   transact env (CreateMarket q dl) w = (w, Failed PanicOverflow)) /\
  (forall deployer this (tok : T) lo hi txs,
     marketCount (run txs (constructor deployer this tok lo hi)) =
     created txs (constructor deployer this tok lo hi)).
Proof.
  split; [|split].
  - intros Hd Hc.
    destruct (createMarket env q dl w) as [id w'|e w'] eqn:E.
    + apply createMarket_success in E as (_ & _ & -> & ->).
      eexists. split; [reflexivity|].
      unfold market_at; cbn [marketCount markets yesStakes noStakes claimed].
      rewrite lookup_insert_eq. repeat split.
      intros id Hid. rewrite lookup_insert_ne by congruence. reflexivity.
    + exfalso. unfold createMarket in E. failure_of E.
  - intros Hd Hc. unfold transact.
    destruct (dispatch env (CreateMarket q dl) w) as [[] w'|e w'] eqn:E.
    + apply dispatch_success, createMarket_success in E as (_ & ? & _). lia.
    + cbn [dispatch] in E. unfold createMarket in E. failure_of E.
  - intros deployer this tok lo hi txs. rewrite run_marketCount. reflexivity.
Qed.

(** ** What a market keeps *)

Lemma market_static_step env op w id :
  wf w -> exists_market w id ->
  let w' := fst (transact env op w) in
  exists_market w' id /\
  question (market_at w' id) = question (market_at w id) /\
  deadline (market_at w' id) = deadline (market_at w id) /\
  (resolved (market_at w id) = true -> resolved (market_at w' id) = true).
Proof.
  intros Hwf Hex. cbv zeta. split.
  - pose proof (exec_marketCount w (env, op)) as Hc.
    unfold exec in Hc; cbn [fst snd] in Hc.
    unfold exists_market in *. lia.
  - destruct (transact_market env op w id Hwf)
      as [->|[(q & dl & _ & Hn & _)|[(a & _ & _ & _ & ->)|[(a & _ & _ & _ & ->)|
          (o & _ & _ & ->)]]]]; auto.
    contradiction.
Qed.

(** Once a market exists it exists for good, and its question and deadline
    are never written again: whatever transactions follow, they stay as
    [createMarket] stored them, and a resolved market stays resolved. *)
Theorem market_question_and_deadline_fixed w marketId txs :
  reachable w ->
  exists_market w marketId ->
  exists_market (run txs w) marketId /\
  question (market_at (run txs w) marketId) = question (market_at w marketId) /\
  deadline (market_at (run txs w) marketId) = deadline (market_at w marketId) /\
  (resolved (market_at w marketId) = true ->
   resolved (market_at (run txs w) marketId) = true).
Proof.
  intros Hreach. pose proof (reachable_wf w Hreach) as Hwf. clear Hreach.
  revert w Hwf. induction txs as [|[env op] txs IH]; intros w Hwf Hex.
  - auto.
  - cbn [run fold_left]. fold (run txs (exec w (env, op))).
    unfold exec; cbn [fst snd].
    destruct (market_static_step env op w marketId Hwf Hex)
      as (Hex1 & Hq & Hd & Hr).
    destruct (IH _ (wf_transact env op w Hwf) Hex1) as (Hex2 & Hq2 & Hd2 & Hr2).
    repeat split; try congruence; auto.
    all: destruct Hex2; assumption.
Qed.

(** ** Stakes *)

(** [getUserStakes(marketId, user)] returns the user's stakes on yes and
    on no. No transaction ever decreases a stake, not even a claim, and a
    transaction sent by another account leaves both stakes unchanged. *)
Theorem stakes_only_grow env op w marketId user :
  let w' := fst (transact env op w) in
  call (getUserStakes marketId user) w =
    inr (yesStake_at w marketId user, noStake_at w marketId user) /\
  yesStake_at w marketId user <= yesStake_at w' marketId user /\
  noStake_at w marketId user <= noStake_at w' marketId user /\
  (msg_sender env <> user ->
   yesStake_at w' marketId user = yesStake_at w marketId user /\
   noStake_at w' marketId user = noStake_at w marketId user) /\
  ((forall amount isYes, op <> PlaceBet marketId amount isYes) ->
   yesStake_at w' marketId user = yesStake_at w marketId user /\
   noStake_at w' marketId user = noStake_at w marketId user).
Proof.
  cbv zeta. split; [reflexivity|].
  unfold transact.
  destruct (dispatch env op w) as [u w'|] eqn:E; cbn [fst];
    [|repeat split; reflexivity].
  step_cases E; unfold yesStake_at, noStake_at in *;
    cbn [yesStakes noStakes]; try (repeat split; reflexivity).
  - rewrite lookup_insert. case_decide as Hk.
    + inversion Hk; subst. cbn.
      split; [lia|]. split; [lia|].
      split; intros Hne; exfalso; [congruence|eapply Hne; reflexivity].
    + repeat split; reflexivity.
  - rewrite lookup_insert. case_decide as Hk.
    + inversion Hk; subst. cbn.
      split; [lia|]. split; [lia|].
      split; intros Hne; exfalso; [congruence|eapply Hne; reflexivity].
    + repeat split; reflexivity.
Qed.

(** ** Rejections *)

(** An id that no market has is rejected by every operation that names a
    market: in a reachable state [placeBet], [claim] and, for the owner,
    [resolveMarket] all fail [MarketDoesNotExist] on it, whatever their
    other arguments, and [calculatePayout] returns 0 for every account. *)
Theorem unknown_market_rejected w marketId :
  reachable w ->
  ~ exists_market w marketId ->
  (forall env amount isYes,
     transact env (PlaceBet marketId amount isYes) w =
     (w, Failed MarketDoesNotExist)) /\
  (forall env,
     transact env (Claim marketId) w = (w, Failed MarketDoesNotExist)) /\
  (forall env outcome,
     msg_sender env = owner w ->
     transact env (ResolveMarket marketId outcome) w =
     (w, Failed MarketDoesNotExist)) /\
  (forall user, call (calculatePayout marketId user) w = inr 0).
Proof.
  intros Hreach Hn. pose proof (reachable_wf w Hreach) as Hwf.
  pose proof (wf_unlocked w Hwf) as He.
  assert (Hmk : market_at w marketId = emptyMarket)
    by (apply market_at_None, (wf_absent w Hwf), Hn).
  assert (Hd : deadline (market_at w marketId) = 0) by (rewrite Hmk; reflexivity).
  split; [|split; [|split]].
  - intros env amount isYes. unfold transact.
    destruct (dispatch env (PlaceBet marketId amount isYes) w)
      as [[] w'|e w'] eqn:E.
    + apply dispatch_success, placeBet_success in E.
      destruct E as (_ & ? & _). contradiction.
    + cbn [dispatch] in E. unfold betYes, betNo, _placeBet in E.
      destruct isYes; failure_of E.
  - intros env. unfold transact; cbn [dispatch].
    destruct (claim env marketId w) as [[] w'|e w'] eqn:E.
    + apply claim_success in E. destruct E as (_ & ? & _). contradiction.
    + unfold claim in E. failure_of E.
  - intros env outcome Ho. unfold transact; cbn [dispatch].
    destruct (resolveMarket env marketId outcome w) as [[] w'|e w'] eqn:E.
    + apply resolveMarket_success in E as (_ & ? & _). contradiction.
    + unfold resolveMarket in E. failure_of E.
  - intros user. rewrite call_calculatePayout. cbv zeta. rewrite Hmk.
    reflexivity.
Qed.

(** On an open market (existing, unresolved, before its deadline) a bet is
    rejected [BetTooSmall] below [minBetSize] and [BetTooLarge] above a
    nonzero [maxBetSize]; a bet within the limits pulls exactly [amount]
    from the caller into the contract, and when the token refuses the pull
    the bet fails and nothing is recorded. On a resolved market the bet
    fails [MarketAlreadyResolved], whatever the time. *)
Theorem placeBet_rejections env marketId amount isYes w :
  reachable w ->
  exists_market w marketId ->
  let mk := market_at w marketId in
  (resolved mk = true ->
   transact env (PlaceBet marketId amount isYes) w =
   (w, Failed MarketAlreadyResolved)) /\
  (resolved mk = false -> block_timestamp env < deadline mk ->
   (amount < minBetSize w ->
    transact env (PlaceBet marketId amount isYes) w = (w, Failed BetTooSmall)) /\
   (minBetSize w <= amount -> 0 < maxBetSize w -> maxBetSize w < amount ->
    transact env (PlaceBet marketId amount isYes) w = (w, Failed BetTooLarge)) /\
   (minBetSize w <= amount -> maxBetSize w = 0 \/ amount <= maxBetSize w ->
    safeTransferFrom (self w) (msg_sender env) (self w) amount (token w) = None ->
    transact env (PlaceBet marketId amount isYes) w = (w, Failed TransferFailed))) /\
  (forall w',
     transact env (PlaceBet marketId amount isYes) w = (w', Success) ->
     safeTransferFrom (self w) (msg_sender env) (self w) amount (token w)
     = Some (token w')).
Proof.
  intros Hreach Hex. pose proof (reachable_wf w Hreach) as Hwf.
  pose proof (wf_unlocked w Hwf) as He.
  pose proof (wf_present w Hwf marketId Hex) as Hd. cbv zeta.
  assert (Hfail : forall e0,
    (forall w', nonReentrant (_placeBet env marketId amount isYes) w
                = Ok tt w' -> False) ->
    (forall e w', nonReentrant (_placeBet env marketId amount isYes) w
                  = Revert e w' -> e = e0) ->
    transact env (PlaceBet marketId amount isYes) w = (w, Failed e0)).
  { intros e0 Hok Hrev. unfold transact.
    destruct (dispatch env (PlaceBet marketId amount isYes) w)
      as [[] w'|e w'] eqn:E.
    - apply dispatch_success in E. elim (Hok _ E).
    - assert (E' : nonReentrant (_placeBet env marketId amount isYes) w
                   = Revert e w') by (destruct isYes; exact E).
      rewrite (Hrev _ _ E'). reflexivity. }
  split; [|split].
  - intros Hr. apply Hfail.
    + intros w' E. apply placeBet_success in E.
      destruct E as (_ & _ & ? & _). congruence.
    + intros e w' E. unfold _placeBet in E. failure_of E.
  - intros Hr Hnow. split; [|split].
    + intros Hlo. apply Hfail.
      * intros w' E. apply placeBet_success in E.
        destruct E as (_ & _ & _ & _ & ? & _). lia.
      * intros e w' E. unfold _placeBet in E. failure_of E.
    + intros Hlo Hpos Hhi. apply Hfail.
      * intros w' E. apply placeBet_success in E.
        destruct E as (_ & _ & _ & _ & _ & ? & _). lia.
      * intros e w' E. unfold _placeBet in E. failure_of E.
        all: match goal with
             | H : _ && _ = false |- _ =>
                 apply andb_false_iff in H; destruct H
             end; bool_to_prop; lia.
    + intros Hlo Hhi Hpull. apply Hfail.
      * intros w' E. apply placeBet_success in E.
        destruct E as (_ & _ & _ & _ & _ & _ & t' & ? & _). congruence.
      * intros e w' E. unfold _placeBet in E.
        run_hyp E; simpl_world; bool_to_prop; inversion E; subst;
          try reflexivity; try congruence; try lia.
        all: match goal with
             | H : _ && _ = true |- _ =>
                 apply andb_true_iff in H; destruct H
             end; bool_to_prop; lia.
  - intros w' H. apply transact_pair in H as [Hw Hs].
    apply transact_success, dispatch_success, placeBet_success in Hs.
    rewrite Hw in Hs.
    destruct Hs as (_ & _ & _ & _ & _ & _ & t' & Ht & E).
    destruct isYes; destruct E as (_ & _ & ->); exact Ht.
Qed.

(** ** Winners *)

(** In a reachable state, the gross payout that [calculatePayout] returns
    for an account on a resolved market is never less than the account's
    stake on the winning side; so a winner with a positive stake is never
    turned away with a zero payout. *)
Theorem payout_at_least_stake w marketId user p :
  reachable w ->
  resolved (market_at w marketId) = true ->
  call (calculatePayout marketId user) w = inr p ->
  winningStake w marketId user <= p /\
  (winningStake w marketId user <> 0 -> p <> 0).
Proof.
  intros Hreach Hr Hp. pose proof (reachable_wf w Hreach) as Hwf.
  assert (Hle : winningStake w marketId user <= p); [|split; [assumption|lia]].
  pose proof (winningStake_sum w marketId [user] Hwf (NoDup_singleton user))
    as Hs.
  cbn [map] in Hs. rewrite sumN_cons in Hs. cbn [sumN fold_right] in Hs.
  assert (Hw : winningPool (market_at w marketId)
               <= totalPool (market_at w marketId))
    by (unfold winningPool, totalPool;
        destruct (outcomeYes (market_at w marketId)); lia).
  rewrite call_calculatePayout in Hp. cbv zeta in Hp. rewrite Hr in Hp.
  cbn [negb] in Hp.
  repeat (break_hyp Hp; try discriminate Hp); inversion Hp; subst; clear Hp.
  - match goal with
    | H : _ || _ = true |- _ => apply orb_true_iff in H; destruct H
    end; bool_to_prop; lia.
  - bool_to_prop.
    etrans; [|apply N.Div0.div_le_mono, N.mul_le_mono_l, Hw].
    rewrite N.div_mul by assumption. reflexivity.
Qed.

(** ** Claims never exceed the pool *)

Lemma covered_nil marketId w : covered_by_claims marketId w 0.
Proof.
  exists []. split; [apply NoDup_nil_2|]. split; [|reflexivity].
  intros a Ha. apply elem_of_nil in Ha. contradiction.
Qed.

Lemma covered_unresolved marketId w acc :
  wf w -> resolved (market_at w marketId) = false ->
  covered_by_claims marketId w acc -> acc = 0.
Proof.
  intros Hwf Hr (l & _ & Hc & Hle).
  destruct l as [|a l]; [cbn in Hle; lia|].
  destruct (wf_claimed w Hwf marketId a) as [Hr' _];
    [apply Hc, elem_of_cons; auto|congruence].
Qed.

Lemma covered_ext marketId w w' acc :
  market_at w' marketId = market_at w marketId ->
  (forall a, winningStake w' marketId a = winningStake w marketId a) ->
  (forall a, claimed_at w marketId a = true -> claimed_at w' marketId a = true) ->
  covered_by_claims marketId w acc -> covered_by_claims marketId w' acc.
Proof.
  intros Hm Hs Hc (l & Hnd & Hcl & Hle). exists l.
  split; [assumption|]. split; [auto|].
  rewrite Hm. etrans; [exact Hle|]. apply N.eq_le_incl. f_equal.
  apply map_ext. intros a. rewrite Hs. reflexivity.
Qed.

Lemma covered_bound marketId w acc :
  wf w -> covered_by_claims marketId w acc ->
  acc <= totalPool (market_at w marketId).
Proof.
  intros Hwf (l & Hnd & Hcl & Hle).
  destruct l as [|a l]; [cbn in Hle; lia|].
  destruct (wf_claimed w Hwf marketId a) as [_ Hp];
    [apply Hcl, elem_of_cons; auto|].
  etrans; [exact Hle|].
  etrans; [apply sumN_floor_le, Hp|].
  etrans; [apply N.Div0.div_le_mono, N.mul_le_mono_r,
           (winningStake_sum w marketId (a :: l) Hwf Hnd)|].
  rewrite N.mul_comm, N.div_mul by assumption. reflexivity.
Qed.

Lemma winningStake_ext marketId w w' a :
  market_at w' marketId = market_at w marketId ->
  yesStake_at w' marketId a = yesStake_at w marketId a ->
  noStake_at w' marketId a = noStake_at w marketId a ->
  winningStake w' marketId a = winningStake w marketId a.
Proof. unfold winningStake. intros -> -> ->. reflexivity. Qed.

Lemma stakes_frozen_resolved env op w marketId a :
  resolved (market_at w marketId) = true ->
  yesStake_at (fst (transact env op w)) marketId a = yesStake_at w marketId a /\
  noStake_at (fst (transact env op w)) marketId a = noStake_at w marketId a.
Proof.
  intros Hr. unfold transact.
  destruct (dispatch env op w) as [u w'|] eqn:E; cbn [fst];
    [|split; reflexivity].
  step_cases E; unfold yesStake_at, noStake_at in *;
    cbn [yesStakes noStakes]; try (split; reflexivity).
  - rewrite lookup_insert. case_decide as Hk; [|split; reflexivity].
    inversion Hk; subst. congruence.
  - rewrite lookup_insert. case_decide as Hk; [|split; reflexivity].
    inversion Hk; subst. congruence.
Qed.

Lemma covered_step marketId w tx acc :
  wf w -> covered_by_claims marketId w acc ->
  covered_by_claims marketId (exec w tx) (acc + paid_by marketId w tx).
Proof.
  intros Hwf Hcov. destruct tx as [env op]. unfold exec, paid_by.
  cbn [fst snd].
  destruct (snd (transact env op w)) eqn:Hs.
  2: { destruct (transact env op w) as [w' o] eqn:Ht. cbn [snd] in Hs.
       subst o. apply transact_failed in Ht. subst w'. cbn [fst].
       replace (acc + _) with acc by (destruct op; lia). exact Hcov. }
  pose proof (fun a => claimed_persists env op w marketId a) as Hcl.
  destruct (resolved (market_at w marketId)) eqn:Hr.
  - (* resolved: the market and its stakes are frozen *)
    assert (Hm : market_at (fst (transact env op w)) marketId
                 = market_at w marketId)
      by (apply resolved_frozen; assumption).
    assert (Hst : forall a,
              winningStake (fst (transact env op w)) marketId a
              = winningStake w marketId a).
    { intros a. apply winningStake_ext; [exact Hm| |];
        apply (stakes_frozen_resolved env op w marketId a Hr). }
    destruct op; try (rewrite N.add_0_r;
                      apply (covered_ext marketId w); assumption).
    destruct (N.eqb_spec marketId0 marketId) as [->|Hne];
      [|rewrite N.add_0_r; apply (covered_ext marketId w); assumption].
    pose proof Hs as Hs'.
    apply transact_success, dispatch_success, claim_success in Hs'.
    destruct Hs' as (_ & _ & _ & Hnc & p & t' & Hp & Hp0 & _ & _ & _ & _ & Hw').
    rewrite Hp.
    destruct Hcov as (l & Hnd & Hcl' & Hle).
    exists (msg_sender env :: l). split; [|split].
    + apply NoDup_cons_2; [|assumption].
      intros Hin. apply Hcl' in Hin. congruence.
    + intros a Ha. apply elem_of_cons in Ha as [->|Ha].
      * rewrite Hw'. unfold claimed_at; cbn [claimed].
        rewrite lookup_insert_eq. reflexivity.
      * apply Hcl, Hcl', Ha.
    + cbn [map]. rewrite sumN_cons, Hm, !Hst.
      destruct (calculatePayout_positive _ _ _ _ Hp Hp0) as (_ & _ & _ & Hpe).
      rewrite <- Hpe.
      assert (Heq : map (fun a => winningStake
                                    (fst (transact env (Claim marketId) w))
                                    marketId a
                                  * totalPool (market_at w marketId)
                                  / winningPool (market_at w marketId)) l
                    = map (fun a => winningStake w marketId a
                                    * totalPool (market_at w marketId)
                                    / winningPool (market_at w marketId)) l)
        by (apply map_ext; intros a; rewrite Hst; reflexivity).
      rewrite Heq. lia.
  - (* unresolved: nothing has been claimed and nothing can be *)
    apply (covered_unresolved marketId w acc Hwf Hr) in Hcov. subst acc.
    assert (Hz : match op with
                 | Claim id =>
                     if id =? marketId
                     then match call (calculatePayout id (msg_sender env)) w with
                          | inl _ => 0
                          | inr p => p
                          end
                     else 0
                 | _ => 0
                 end = 0).
    { destruct op; try reflexivity.
      destruct (N.eqb_spec marketId0 marketId) as [->|Hne]; [|reflexivity].
      apply transact_success, dispatch_success, claim_success in Hs.
      destruct Hs as (_ & _ & Hr' & _). congruence. }
    rewrite Hz. apply covered_nil.
Qed.

Lemma covered_run marketId txs w acc :
  wf w -> covered_by_claims marketId w acc ->
  covered_by_claims marketId (run txs w) (acc + paid marketId txs w).
Proof.
  revert w acc. induction txs as [|tx txs IH]; intros w acc Hwf Hcov.
  - cbn [run fold_left paid]. rewrite N.add_0_r. exact Hcov.
  - cbn [run fold_left paid]. fold (run txs (exec w tx)).
    rewrite N.add_assoc. apply IH.
    + destruct tx. apply wf_transact. assumption.
    + apply covered_step; assumption.
Qed.

(** No more leaves a market than was staked on it: after any sequence of
    transactions on a fresh contract, the gross payouts of all successful
    claims on a market (what was transferred to the claimants plus the fees
    kept on those claims) sum to at most [yesPool + noPool] of that
    market. *)
Theorem claims_never_exceed_pool deployer this (tok : T) lo hi txs marketId :
  let w0 := constructor deployer this tok lo hi in
  paid marketId txs w0 <=
  yesPool (market_at (run txs w0) marketId) +
  noPool (market_at (run txs w0) marketId).
Proof.
  cbv zeta.
  pose proof (wf_constructor deployer this tok lo hi) as Hwf0.
  pose proof (covered_run marketId txs _ 0 Hwf0 (covered_nil marketId _))
    as Hcov.
  rewrite N.add_0_l in Hcov.
  apply (covered_bound marketId _ _ (wf_run txs _ Hwf0) Hcov).
Qed.

(** ** The event log *)

Lemma sumN_app l1 l2 : sumN (l1 ++ l2) = sumN l1 + sumN l2.
Proof.
  induction l1 as [|x l1 IH]; [reflexivity|].
  cbn [app]. rewrite !sumN_cons, IH. lia.
Qed.

Lemma sumN_map_snoc {A} (f : A -> N) l x :
  sumN (map f (l ++ [x])) = sumN (map f l) + f x.
Proof. rewrite map_app, sumN_app. cbn. lia. Qed.

Lemma log_agrees_constructor deployer this (tok : T) lo hi :
  log_agrees (constructor deployer this tok lo hi).
Proof.
  split; [reflexivity|]. intros marketId user.
  unfold market_at, yesStake_at, noStake_at, claimed_at.
  cbn [constructor markets yesStakes noStakes claimed events].
  rewrite !lookup_empty. cbn. repeat split; try discriminate.
  intros [amount H]. apply elem_of_nil in H. contradiction.
Qed.

Lemma log_claimed_snoc (log : list Event) ev marketId user :
  (exists amount, Claimed marketId user amount ∈ log ++ [ev]) <->
  (exists amount, Claimed marketId user amount ∈ log) \/
  (exists amount, ev = Claimed marketId user amount).
Proof.
  split.
  - intros [a Ha]. apply elem_of_app in Ha as [Ha|Ha]; [eauto|].
    apply list_elem_of_singleton in Ha. eauto.
  - intros [[a Ha]|[a ->]]; exists a; apply elem_of_app; [auto|].
    right. apply list_elem_of_singleton. reflexivity.
Qed.

Ltac solve_logged :=
  rewrite ?lookup_insert;
  repeat case_decide;
  repeat match goal with
    | |- context [N.eqb ?a ?b] => destruct (N.eqb_spec a b)
    end;
  cbn [default from_option id with_yesPool with_noPool with_resolution
       yesPool noPool andb Bool.eqb];
  subst; try congruence; try lia.

Lemma log_agrees_step env op w :
  wf w -> log_agrees w -> log_agrees (fst (transact env op w)).
Proof.
  intros Hwf [Hcount Hlog]. unfold transact.
  destruct (dispatch env op w) as [u w'|] eqn:E; cbn [fst];
    [|split; assumption].
  step_cases E; split; cbn [marketCount events];
    rewrite ?sumN_map_snoc; cbn [logged_market]; try lia;
    intros id user; destruct (Hlog id user) as (Hy & Hn & Hys & Hns & Hcl);
    try (pose proof (wf_absent w Hwf id) as Habs);
    unfold exists_market, market_at, yesStake_at, noStake_at, claimed_at in *;
    cbn [markets yesStakes noStakes claimed events];
    rewrite ?sumN_map_snoc, ?log_claimed_snoc; cbn [logged_bet logged_stake];
    (split; [|split; [|split; [|split]]]);
    try solve [solve_logged].
  - rewrite lookup_insert. case_decide; [|lia]. subst id.
    rewrite Habs in Hy by lia. cbn in *. lia.
  - rewrite lookup_insert. case_decide; [|lia]. subst id.
    rewrite Habs in Hn by lia. cbn in *. lia.
  - rewrite Hcl. split; [auto|]. intros [?|[a Ha]]; [assumption|discriminate].
  - rewrite Hcl. split; [auto|]. intros [?|[a Ha]]; [assumption|discriminate].
  - rewrite Hcl. split; [auto|]. intros [?|[a Ha]]; [assumption|discriminate].
  - rewrite Hcl. split; [auto|]. intros [?|[a Ha]]; [assumption|discriminate].
  - rewrite lookup_insert. case_decide as Hk.
    + inversion Hk; subst. cbn. split; [eauto|reflexivity].
    + rewrite Hcl. split; [auto|]. intros [?|[a Ha]]; [assumption|].
      inversion Ha; subst. congruence.
  - rewrite Hcl. split; [auto|]. intros [?|[a Ha]]; [assumption|discriminate].
  - rewrite Hcl. split; [auto|]. intros [?|[a Ha]]; [assumption|discriminate].
Qed.

(** The event log is a complete record of the ledger: after any sequence
    of transactions on a fresh contract, [marketCount] is the number of
    [MarketCreated] events, each pool is the sum of the amounts of the
    [BetPlaced] events of its market and side, each stake is the sum of
    those of its account among them, and an account has claimed on a
    market exactly when a [Claimed] event says so. *)
Theorem event_log_reflects_ledger deployer this (tok : T) lo hi txs
    marketId user :
  let w := run txs (constructor deployer this tok lo hi) in
  marketCount w = sumN (map logged_market (events w)) /\
  yesPool (market_at w marketId)
    = sumN (map (logged_bet marketId true) (events w)) /\
  noPool (market_at w marketId)
    = sumN (map (logged_bet marketId false) (events w)) /\
  yesStake_at w marketId user
    = sumN (map (logged_stake marketId user true) (events w)) /\
  noStake_at w marketId user
    = sumN (map (logged_stake marketId user false) (events w)) /\
  (claimed_at w marketId user = true <->
   exists amount, Claimed marketId user amount ∈ events w).
Proof.
  cbv zeta.
  assert (H : forall txs w, wf w -> log_agrees w -> log_agrees (run txs w)).
  { clear. intros txs. induction txs as [|[env op] txs IH]; intros w Hwf Hl;
      [exact Hl|].
    cbn [run fold_left]. fold (run txs (exec w (env, op))).
    apply IH; [apply wf_transact|apply log_agrees_step]; assumption. }
  destruct (H txs _ (wf_constructor deployer this tok lo hi)
              (log_agrees_constructor deployer this tok lo hi)) as [Hc Hl].
  split; [exact Hc|]. apply Hl.
Qed.

End Properties.

(** * Properties of the consumer *)

Section ConsumerProperties.

(** ** The call data of [getMarket] *)

Lemma length_string_of_uint d :
  String.length (HexadecimalString.NilEmpty.string_of_uint d)
  = Hexadecimal.nb_digits d.
Proof.
  induction d;
    cbn [HexadecimalString.NilEmpty.string_of_uint String.length
         Hexadecimal.nb_digits];
    rewrite ?IHd; reflexivity.
Qed.

Lemma usize_nb_digits d :
  HexadecimalPos.Unsigned.usize d = N.of_nat (Hexadecimal.nb_digits d).
Proof.
  induction d; cbn [HexadecimalPos.Unsigned.usize Hexadecimal.nb_digits];
    rewrite ?IHd; lia.
Qed.

Lemma to_hex_uint_norm n : Hexadecimal.unorm (N.to_hex_uint n) = N.to_hex_uint n.
Proof.
  rewrite <- (HexadecimalN.Unsigned.of_to n) at 2.
  rewrite HexadecimalN.Unsigned.to_of. reflexivity.
Qed.

Lemma to_hex_uint_nonnil n : N.to_hex_uint n <> Hexadecimal.Nil.
Proof.
  intros E. pose proof (to_hex_uint_norm n) as H. rewrite E in H. discriminate.
Qed.

Lemma of_hex_uint_lower d :
  Hexadecimal.unorm d = d -> d <> Hexadecimal.zero ->
  16 ^ N.of_nat (Hexadecimal.nb_digits d - 1) <= N.of_hex_uint d.
Proof.
  intros Hn Hz. unfold Hexadecimal.unorm in Hn.
  destruct d; cbn [Hexadecimal.nzhead] in Hn.
  1: discriminate.
  1: { exfalso. destruct (Hexadecimal.nzhead d) eqn:E; try discriminate.
       - apply Hz. inversion Hn. reflexivity.
       - eapply HexadecimalFacts.nzhead_nonzero. exact E. }
  all: unfold N.of_hex_uint; cbn [Pos.of_hex_uint Hexadecimal.nb_digits];
    rewrite HexadecimalPos.Unsigned.of_uint_acc_rev, usize_nb_digits;
    replace (S (Hexadecimal.nb_digits d) - 1)%nat
      with (Hexadecimal.nb_digits d) by lia;
    nia.
Qed.

Lemma nb_digits_to_hex_uint n k :
  n < 16 ^ N.of_nat k -> (1 <= k)%nat ->
  (Hexadecimal.nb_digits (N.to_hex_uint n) <= k)%nat.
Proof.
  intros Hn Hk.
  destruct (N.eq_dec n 0) as [->|Hz]; [cbn; lia|].
  pose proof (of_hex_uint_lower (N.to_hex_uint n) (to_hex_uint_norm n)) as H.
  rewrite HexadecimalN.Unsigned.of_to in H.
  assert (Hnz : N.to_hex_uint n <> Hexadecimal.zero).
  { intros E. apply (f_equal N.of_hex_uint) in E.
    rewrite HexadecimalN.Unsigned.of_to in E. cbn in E. contradiction. }
  specialize (H Hnz).
  destruct (PeanoNat.Nat.le_gt_cases
              (Hexadecimal.nb_digits (N.to_hex_uint n)) k)
    as [|Hgt]; [assumption|exfalso].
  assert (16 ^ N.of_nat k
          <= 16 ^ N.of_nat (Hexadecimal.nb_digits (N.to_hex_uint n) - 1))
    by (apply N.pow_le_mono_r; lia).
  lia.
Qed.

Lemma length_toString16 (n : SafeInteger) :
  (String.length (toString16 n) <= 14)%nat.
Proof.
  unfold toString16, HexadecimalString.NilZero.string_of_uint.
  assert (Hn : valueOf n < 16 ^ N.of_nat 14).
  { pose proof (isSafeInteger n) as H. apply N.leb_le in H.
    eapply N.le_lt_trans; [exact H|]. vm_compute. reflexivity. }
  pose proof (nb_digits_to_hex_uint (valueOf n) 14 Hn ltac:(lia)).
  pose proof (to_hex_uint_nonnil (valueOf n)).
  destruct (N.to_hex_uint (valueOf n)) eqn:E; try contradiction;
    rewrite length_string_of_uint; assumption.
Qed.

Lemma length_string_append s1 s2 :
  String.length (String.append s1 s2)
  = (String.length s1 + String.length s2)%nat.
Proof.
  induction s1 as [|a s1 IH]; [reflexivity|].
  change (String.append (String a s1) s2) with (String a (String.append s1 s2)).
  cbn [String.length]. rewrite IH. reflexivity.
Qed.

Lemma length_zeroFill k : String.length (zeroFill k) = k.
Proof.
  induction k as [|k IH]; cbn [zeroFill String.length]; rewrite ?IH;
    reflexivity.
Qed.

Lemma uint_of_string_zeroFill k s :
  HexadecimalString.NilEmpty.uint_of_string (String.append (zeroFill k) s) =
  option_map (PeanoNat.Nat.iter k Hexadecimal.D0)
    (HexadecimalString.NilEmpty.uint_of_string s).
Proof.
  induction k as [|k IH].
  - change (String.append (zeroFill 0) s) with s. cbn.
    destruct (HexadecimalString.NilEmpty.uint_of_string s); reflexivity.
  - change (String.append (zeroFill (S k)) s)
      with (String "0"%char (String.append (zeroFill k) s)).
    cbn [HexadecimalString.NilEmpty.uint_of_string]. rewrite IH.
    destruct (HexadecimalString.NilEmpty.uint_of_string s); reflexivity.
Qed.

Lemma of_hex_uint_iter_D0 k d :
  N.of_hex_uint (PeanoNat.Nat.iter k Hexadecimal.D0 d) = N.of_hex_uint d.
Proof. induction k; cbn in *; auto. Qed.

Lemma uint_of_string_toString16 (n : SafeInteger) :
  HexadecimalString.NilEmpty.uint_of_string (toString16 n)
  = Some (N.to_hex_uint (valueOf n)).
Proof.
  unfold toString16.
  pose proof (HexadecimalString.NilZero.usu (N.to_hex_uint (valueOf n))
                (to_hex_uint_nonnil (valueOf n))) as H.
  unfold HexadecimalString.NilZero.uint_of_string in H.
  destruct (HexadecimalString.NilZero.string_of_uint
              (N.to_hex_uint (valueOf n))) eqn:E;
    [discriminate|exact H].
Qed.

Lemma substring_all s : substring 0 (String.length s) s = s.
Proof.
  induction s as [|a s IH]; [reflexivity|].
  cbn [String.length substring]. rewrite IH. reflexivity.
Qed.

Lemma substring_append_skip p s :
  substring (String.length p) (String.length s) (String.append p s) = s.
Proof.
  induction p as [|a p IH].
  - change (String.append EmptyString s) with s. apply substring_all.
  - change (String.append (String a p) s)
      with (String a (String.append p s)).
    cbn [String.length substring]. exact IH.
Qed.

Lemma substring_prefix a r :
  substring 0 (String.length a) (String.append a r) = a.
Proof.
  induction a as [|c a IH].
  - change (String.append EmptyString r) with r. destruct r; reflexivity.
  - change (String.append (String c a) r)
      with (String c (String.append a r)).
    cbn [String.length substring]. rewrite IH. reflexivity.
Qed.

Lemma substring_append_prefix p a r :
  substring (String.length p) (String.length a)
    (String.append p (String.append a r)) = a.
Proof.
  induction p as [|c p IH].
  - change (String.append EmptyString (String.append a r))
      with (String.append a r).
    apply substring_prefix.
  - change (String.append (String c p) (String.append a r))
      with (String c (String.append p (String.append a r))).
    cbn [String.length substring]. exact IH.
Qed.

Lemma zeroFill_add a b s :
  String.append (zeroFill (a + b)) s
  = String.append (zeroFill a) (String.append (zeroFill b) s).
Proof.
  induction a as [|a IH]; [reflexivity|].
  cbn [Nat.add zeroFill].
  change (String.append (String "0" (zeroFill (a + b))) s)
    with (String "0"%char (String.append (zeroFill (a + b)) s)).
  rewrite IH. reflexivity.
Qed.

Lemma length_word (marketId : SafeInteger) :
  String.length (padStart0 64 (toString16 marketId)) = 64%nat.
Proof.
  pose proof (length_toString16 marketId).
  unfold padStart0. rewrite length_string_append, length_zeroFill. lia.
Qed.

Lemma encodeGetMarket_argument (marketId : SafeInteger) :
  substring 10 64 (encodeGetMarket marketId)
  = padStart0 64 (toString16 marketId).
Proof.
  unfold encodeGetMarket.
  rewrite <- (length_word marketId) at 1.
  exact (substring_append_skip "0x3a057ac1" _).
Qed.

Lemma encodeGetMarket_decodes (marketId : SafeInteger) :
  option_map N.of_hex_uint
    (HexadecimalString.NilEmpty.uint_of_string
       (substring 10 64 (encodeGetMarket marketId)))
  = Some (valueOf marketId).
Proof.
  rewrite encodeGetMarket_argument. unfold padStart0.
  rewrite uint_of_string_zeroFill, uint_of_string_toString16.
  cbn [option_map]. rewrite of_hex_uint_iter_D0.
  rewrite HexadecimalN.Unsigned.of_to. reflexivity.
Qed.

(** The call data for a market id, a safe integer: 74 characters, of which
    the 64 after the first ten are hexadecimal digits, at least 50 leading
    zeros among them, whose value is the id, that is the 32-byte big-endian
    word the ABI expects for a [uint256] argument. Two ids with the same
    call data are the same id. *)
Theorem encodeGetMarket_word (marketId : SafeInteger) :
  String.length (encodeGetMarket marketId) = 74%nat /\
  substring 10 50 (encodeGetMarket marketId) = zeroFill 50 /\
  (exists digits,
     HexadecimalString.NilEmpty.uint_of_string
       (substring 10 64 (encodeGetMarket marketId)) = Some digits /\
     N.of_hex_uint digits = valueOf marketId) /\
  (forall other : SafeInteger,
     encodeGetMarket other = encodeGetMarket marketId ->
     valueOf other = valueOf marketId).
Proof.
  split; [|split; [|split]].
  - unfold encodeGetMarket.
    rewrite length_string_append, length_word. reflexivity.
  - pose proof (length_toString16 marketId) as Hlen.
    unfold encodeGetMarket, padStart0.
    replace (64 - String.length (toString16 marketId))%nat
      with (50 + (14 - String.length (toString16 marketId)))%nat by lia.
    rewrite zeroFill_add.
    rewrite <- (length_zeroFill 50) at 1.
    exact (substring_append_prefix "0x3a057ac1" _ _).
  - pose proof (encodeGetMarket_decodes marketId) as H.
    destruct (HexadecimalString.NilEmpty.uint_of_string
                (substring 10 64 (encodeGetMarket marketId)))
      as [digits|]; [|discriminate].
    exists digits. split; [reflexivity|].
    cbn [option_map] in H. congruence.
  - intros other E.
    pose proof (encodeGetMarket_decodes other) as H.
    rewrite E, encodeGetMarket_decodes in H. congruence.
Qed.

(** ** The selector the client sends *)

(** Known hashes: of the empty string and of ["abc"], and the selector of
    the ERC-20 [transfer]. *)
Lemma keccak256_known_answers :
  Keccak.keccak256 "" =
  "0xc5d2460186f7233c927e7db2dcc703c0e500b653ca82273b7bfad8045d85a470" /\
  Keccak.keccak256 "abc" =
  "0x4e03657aea45a94fc7d47ba826c8d667c0d1e6e33a64a036ec44f58fa12d6c45" /\
  substring 0 10 (Keccak.keccak256 "transfer(address,uint256)") = "0xa9059cbb".
Proof. repeat split; vm_compute; reflexivity. Qed.

(** The call data of [encodeGetMarket] starts with ["0x3a057ac1"] whatever
    the id. That is not what the source says the constant is: the first ten
    characters of keccak256("getMarket(uint256)") are ["0xeb44fdd3"]. Nor
    is it the selector of any other function or getter that the contract
    declares, so the request reaches none of them. *)
Theorem encodeGetMarket_selector_mismatch (marketId : SafeInteger) :
  substring 0 10 (encodeGetMarket marketId) = "0x3a057ac1" /\
  substring 0 10 (Keccak.keccak256 "getMarket(uint256)") = "0xeb44fdd3" /\
  List.Forall
    (fun signature =>
       substring 0 10 (Keccak.keccak256 signature)
       <> substring 0 10 (encodeGetMarket marketId))
    declared_functions.
Proof.
  assert (Hs : substring 0 10 (encodeGetMarket marketId) = "0x3a057ac1")
    by exact (substring_prefix "0x3a057ac1" _).
  split; [exact Hs|]. split; [vm_compute; reflexivity|].
  rewrite Hs. apply List.Forall_forall. intros signature Hin.
  assert (Hall : forallb
                   (fun s => negb (String.eqb
                                     (substring 0 10 (Keccak.keccak256 s))
                                     "0x3a057ac1"))
                   declared_functions = true)
    by (vm_compute; reflexivity).
  rewrite List.forallb_forall in Hall. specialize (Hall signature Hin).
  intros E. rewrite E, String.eqb_refl in Hall. discriminate Hall.
Qed.

(** ** The list of markets *)

Context {Fetched : Type} (fetchMarket : N -> option Fetched).

Lemma fetchLoop_acc n i acc :
  fetchLoop fetchMarket n i acc = acc ++ fetchLoop fetchMarket n i [].
Proof.
  revert i acc. induction n as [|n IH]; intros i acc; cbn [fetchLoop].
  - rewrite app_nil_r. reflexivity.
  - rewrite IH.
    rewrite (IH _ (match fetchMarket i with Some _ => _ | None => _ end)).
    destruct (fetchMarket i); cbn [app]; rewrite <- ?app_assoc; reflexivity.
Qed.

Lemma fetchLoop_elem n i j m :
  (j, m) ∈ fetchLoop fetchMarket n i [] <->
  i <= j < i + N.of_nat n /\ fetchMarket j = Some m.
Proof.
  revert i. induction n as [|n IH]; intros i; cbn [fetchLoop].
  - split; [intros H; apply elem_of_nil in H; contradiction|lia].
  - rewrite fetchLoop_acc, elem_of_app, IH.
    destruct (fetchMarket i) as [mi|] eqn:E.
    + rewrite app_nil_l, list_elem_of_singleton. split.
      * intros [H|[H1 H2]]; [inversion H; subst; split; [lia|assumption]|].
        split; [lia|assumption].
      * intros [H1 H2]. destruct (N.eq_dec j i) as [->|Hne].
        -- left. congruence.
        -- right. split; [lia|assumption].
    + split.
      * intros [H|[H1 H2]]; [apply elem_of_nil in H; contradiction|].
        split; [lia|assumption].
      * intros [H1 H2]. right. split; [|assumption].
        destruct (N.eq_dec j i) as [->|Hne]; [congruence|lia].
Qed.

Lemma fetchLoop_sorted n i :
  StronglySorted (fun a b => fst a < fst b) (fetchLoop fetchMarket n i []).
Proof.
  revert i. induction n as [|n IH]; intros i; cbn [fetchLoop];
    [constructor|].
  rewrite fetchLoop_acc.
  destruct (fetchMarket i) as [mi|]; [|apply IH].
  cbn [app]. constructor; [apply IH|].
  apply Forall_forall. intros [j m] Hin. apply fetchLoop_elem in Hin. cbn. lia.
Qed.

Lemma StronglySorted_snoc {A} (R : A -> A -> Prop) l x :
  StronglySorted R l -> Forall (fun y => R y x) l ->
  StronglySorted R (l ++ [x]).
Proof.
  induction 1 as [|a l Hs IH Ha]; intros Hall; cbn [app].
  - repeat constructor.
  - apply Forall_cons in Hall as [Hax Hall].
    constructor; [apply IH, Hall|].
    apply Forall_app. split; [assumption|repeat constructor; assumption].
Qed.

Lemma StronglySorted_rev {A} (R : A -> A -> Prop) l :
  StronglySorted R l -> StronglySorted (fun a b => R b a) (rev l).
Proof.
  induction 1 as [|a l Hs IH Ha]; cbn [rev]; [constructor|].
  apply StronglySorted_snoc; [exact IH|].
  apply Forall_forall. intros y Hy.
  apply list_elem_of_In, in_rev, list_elem_of_In in Hy.
  rewrite Forall_forall in Ha. apply Ha, Hy.
Qed.

(** The list of markets shown by the client holds exactly the markets
    1..count whose request and decoding succeeded, each once under its own
    id, and in strictly decreasing order of id (newest first); a market
    that failed is skipped without disturbing the others. *)
Theorem fetchMarkets_newest_first count :
  (forall i market,
     (i, market) ∈ fetchMarkets fetchMarket count <->
     1 <= i <= count /\ fetchMarket i = Some market) /\
  StronglySorted (fun a b => fst b < fst a) (fetchMarkets fetchMarket count).
Proof.
  unfold fetchMarkets. destruct (N.eqb_spec count 0) as [->|Hc].
  - split; [|constructor]. intros i m. split; [|lia].
    intros H. apply elem_of_nil in H. contradiction.
  - split.
    + intros i m. rewrite list_elem_of_In, <- in_rev, <- list_elem_of_In.
      rewrite fetchLoop_elem, N2Nat.id.
      split; intros [H1 H2]; (split; [lia|assumption]).
    + apply StronglySorted_rev with (R := fun a b => fst a < fst b).
      apply fetchLoop_sorted.
Qed.

End ConsumerProperties.

(** * The properties on the example runs *)

Section Examples.

Import Ledger Example.

Lemma reachable_example txs : reachable (run txs w_fresh).
Proof. apply reachable_run, reachable_init. Qed.

(** C1 on the example: account 7 claims market 1; after a claim by account
    8, a second claim by account 7 fails [AlreadyClaimed]. *)
Lemma claim_at_most_once_witness :
  reachable w_resolved /\
  snd (transact (mkEnv 7 11) (Claim 1) w_resolved) = Success /\
  transact (mkEnv 7 13) (Claim 1) (run [(mkEnv 8 12, Claim 1)] w_claimed) =
  (run [(mkEnv 8 12, Claim 1)] w_claimed, Failed AlreadyClaimed).
Proof.
  assert (Hs : snd (transact (mkEnv 7 11) (Claim 1) w_resolved) = Success)
    by (vm_compute; reflexivity).
  split; [apply reachable_example|]. split; [exact Hs|].
  destruct (claim_at_most_once (mkEnv 7 11) 1 w_resolved
              (reachable_example history)) as (_ & _ & H).
  exact (H Hs [(mkEnv 8 12, Claim 1)] (mkEnv 7 13) eq_refl).
Defined.

(** C2 on the example of the spec: payout 142, fee 2, 140 transferred. *)
Lemma claim_fee_split_witness :
  transact (mkEnv 7 11) (Claim 1) w_resolved = (w_claimed, Success) /\
  call (calculatePayout 1 7) w_resolved = inr 142 /\
  accumulatedFees w_claimed = accumulatedFees w_resolved + 142 * 200 / 10000 /\
  safeTransfer 99 7 (142 - 142 * 200 / 10000) (token w_resolved) =
    Some (token w_claimed).
Proof.
  assert (Hs : transact (mkEnv 7 11) (Claim 1) w_resolved = (w_claimed, Success))
    by (vm_compute; reflexivity).
  split; [exact Hs|].
  destruct (claim_fee_split (mkEnv 7 11) 1 w_resolved w_claimed Hs)
    as (p & Hp & _ & Hacc & Htr & _ & Hex).
  assert (Hp142 : p = 142).
  { apply Hex; vm_compute; reflexivity. }
  subst p. repeat split; assumption.
Defined.

(** C3 on the example: the stake 100 of account 7 pays
    [floor(100 * 1000 / 700) = 142]. *)
Lemma calculatePayout_cases_witness :
  resolved (market_at w_resolved 1) = true /\
  winningStake w_resolved 1 7 * totalPool (market_at w_resolved 1)
    <= UINT256_MAX /\
  call (calculatePayout 1 7) w_resolved = inr (100 * 1000 / 700).
Proof.
  assert (Hr : resolved (market_at w_resolved 1) = true)
    by (vm_compute; reflexivity).
  assert (Hm : winningStake w_resolved 1 7 * totalPool (market_at w_resolved 1)
               <= UINT256_MAX) by (vm_compute; discriminate).
  split; [exact Hr|]. split; [exact Hm|].
  destruct (calculatePayout_cases 1 7 w_resolved) as (_ & _ & H & _).
  refine (eq_trans (H Hr _ _ Hm) _);
    [vm_compute; discriminate|vm_compute; discriminate|reflexivity].
Defined.

(** C3 as stated fails where the product overflows: account 9 holds the
    whole winning pool of 2^128, the market is resolved in its favour, and
    [calculatePayout] reverts instead of returning
    [floor(stake * total / winningPool)]. *)
Lemma calculatePayout_overflow_counterexample :
  reachable w_big /\
  resolved (market_at w_big 1) = true /\
  winningStake w_big 1 9 = 2 ^ 128 /\
  winningPool (market_at w_big 1) = 2 ^ 128 /\
  totalPool (market_at w_big 1) = 2 ^ 128 /\
  call (calculatePayout 1 9) w_big = inl PanicOverflow /\
  call (calculatePayout 1 9) w_big <>
    inr (winningStake w_big 1 9 * totalPool (market_at w_big 1)
         / winningPool (market_at w_big 1)).
Proof.
  split; [apply reachable_example|].
  repeat split; try (vm_compute; reflexivity).
  vm_compute. discriminate.
Qed.

(** C4 on the example: accounts 7 and 8 hold the whole winning pool of
    700; their payouts are 142 and 857, one unit short of the total. *)
Lemma payouts_within_pool_witness :
  reachable w_resolved /\
  NoDup [7; 8] /\
  resolved (market_at w_resolved 1) = true /\
  winningPool (market_at w_resolved 1) <> 0 /\
  exists dust, sumN [142; 857] + dust = totalPool (market_at w_resolved 1).
Proof.
  assert (Hnd : NoDup [7; 8]).
  { apply NoDup_cons_2; [|apply NoDup_singleton].
    intros Hin. apply list_elem_of_singleton in Hin. discriminate. }
  assert (Hr : resolved (market_at w_resolved 1) = true)
    by (vm_compute; reflexivity).
  assert (Hp : winningPool (market_at w_resolved 1) <> 0)
    by (vm_compute; discriminate).
  split; [apply reachable_example|]. split; [exact Hnd|].
  split; [exact Hr|]. split; [exact Hp|].
  destruct (payouts_within_pool w_resolved 1 [7; 8]
              (reachable_example history) Hnd Hr Hp) as (_ & _ & H).
  apply H. repeat constructor; vm_compute; reflexivity.
Defined.

(** C5 on the example: the owner resolves market 1 at its deadline, which
    succeeds; after a further claim, a second call by the owner fails
    [MarketAlreadyResolved] and the outcome is still yes. *)
Lemma resolveMarket_once_witness :
  reachable w_betted /\
  exists_market w_betted 1 /\
  resolved (market_at w_betted 1) = false /\
  deadline (market_at w_betted 1) <= block_timestamp (mkEnv 1 10) /\
  snd (transact (mkEnv 1 10) (ResolveMarket 1 true) w_betted) = Success /\
  outcomeYes
    (market_at
       (run [(mkEnv 7 11, Claim 1)]
          (fst (transact (mkEnv 1 10) (ResolveMarket 1 true) w_betted))) 1)
    = true /\
  transact (mkEnv 1 12) (ResolveMarket 1 false)
    (run [(mkEnv 7 11, Claim 1)]
       (fst (transact (mkEnv 1 10) (ResolveMarket 1 true) w_betted))) =
  (run [(mkEnv 7 11, Claim 1)]
     (fst (transact (mkEnv 1 10) (ResolveMarket 1 true) w_betted)),
   Failed MarketAlreadyResolved).
Proof.
  assert (Hex : exists_market w_betted 1)
    by (unfold exists_market; vm_compute; split; discriminate).
  assert (Hr : resolved (market_at w_betted 1) = false)
    by (vm_compute; reflexivity).
  assert (Hn : deadline (market_at w_betted 1) <= block_timestamp (mkEnv 1 10))
    by (vm_compute; discriminate).
  destruct (resolveMarket_once (mkEnv 1 10) 1 true w_betted
              (reachable_example _)) as (_ & _ & _ & Hok & H).
  assert (Hs : snd (transact (mkEnv 1 10) (ResolveMarket 1 true) w_betted)
               = Success)
    by (rewrite (Hok eq_refl Hex Hr Hn); reflexivity).
  split; [apply reachable_example|]. split; [exact Hex|].
  split; [exact Hr|]. split; [exact Hn|]. split; [exact Hs|].
  destruct (H Hs [(mkEnv 7 11, Claim 1)]) as (_ & Ho & H').
  split; [exact Ho|].
  specialize (H' (mkEnv 1 12) false).
  assert (Hif : (msg_sender (mkEnv 1 12) =?
                 owner (run [(mkEnv 7 11, Claim 1)]
                          (fst (transact (mkEnv 1 10) (ResolveMarket 1 true)
                                  w_betted)))) = true)
    by (vm_compute; reflexivity).
  rewrite Hif in H'. exact H'.
Defined.

(** C6 on the example: with no maximum configured, account 7 bets 100 on
    yes before the deadline and the yes pool grows from 0 to 100. *)
Lemma placeBet_guarded_witness :
  reachable w_created /\
  maxBetSize w_created = 0 /\
  snd (transact (mkEnv 7 1) (PlaceBet 1 100 true) w_created) = Success /\
  yesPool (market_at (fst (transact (mkEnv 7 1) (PlaceBet 1 100 true)
                             w_created)) 1) =
  yesPool (market_at w_created 1) + 100.
Proof.
  assert (Hs : snd (transact (mkEnv 7 1) (PlaceBet 1 100 true) w_created)
               = Success) by (vm_compute; reflexivity).
  split; [apply reachable_example|]. split; [reflexivity|].
  split; [exact Hs|].
  destruct (placeBet_guarded (mkEnv 7 1) 1 100 true w_created
              (reachable_example _)) as (H & _).
  destruct (H Hs) as (_ & _ & _ & _ & _ & Hy & _).
  exact Hy.
Defined.

(** C7 on two examples. On a state the contract reaches, account 7's
    [claim] sets the claimed flag and then overflows on the fee; the
    transaction fails and the flag is clear again. And the example of the
    spec: [createMarket] with the deadline one second in the past. *)
Lemma failure_changes_nothing_witness :
  reachable w_stuck /\
  dispatch (mkEnv 7 11) (Claim 1) w_stuck =
    Revert PanicOverflow w_stuck_partial /\
  entered w_stuck_partial = true /\
  claimed_at w_stuck_partial 1 (msg_sender (mkEnv 7 11)) = true /\
  claimed_at w_stuck 1 (msg_sender (mkEnv 7 11)) = false /\
  entered w_stuck = false /\
  transact (mkEnv 7 11) (Claim 1) w_stuck = (w_stuck, Failed PanicOverflow) /\
  fst (transact (mkEnv 7 11) (Claim 1) w_stuck) = w_stuck /\
  transact (mkEnv 5 6) (CreateMarket "q" 5) w_fresh =
    (w_fresh, Failed DeadlineMustBeFuture) /\
  marketCount (fst (transact (mkEnv 5 6) (CreateMarket "q" 5) w_fresh)) =
    marketCount w_fresh.
Proof.
  assert (E : dispatch (mkEnv 7 11) (Claim 1) w_stuck =
              Revert PanicOverflow w_stuck_partial)
    by (vm_compute; reflexivity).
  destruct (@failure_changes_nothing (gmap address N) _) as (H1 & H2 & H3).
  destruct (H2 _ _ _ _ _ E) as (Ht & Hw).
  split; [apply reachable_run, reachable_init|]. split; [exact E|].
  assert (Hp : entered w_stuck_partial = true /\
               claimed_at w_stuck_partial 1 (msg_sender (mkEnv 7 11)) = true /\
               claimed_at w_stuck 1 (msg_sender (mkEnv 7 11)) = false /\
               entered w_stuck = false).
  { destruct Hw as [(Hbad & _)|(He & [Hw|(_ & He1 & Hc & Hc1)])].
    - discriminate Hbad.
    - apply (f_equal (fun w => claimed_at w 1 7)) in Hw.
      vm_compute in Hw. discriminate Hw.
    - split; [exact He1|]. split; [exact Hc1|]. split; [exact Hc|exact He]. }
  destruct Hp as (Hp1 & Hp2 & Hp3 & Hp4).
  split; [exact Hp1|]. split; [exact Hp2|]. split; [exact Hp3|].
  split; [exact Hp4|]. split; [exact Ht|].
  split; [apply (H1 _ _ _ PanicOverflow); rewrite Ht; reflexivity|].
  apply (H3 (mkEnv 5 6) "q"%string 5 w_fresh). vm_compute. discriminate.
Defined.

(** The rollback of C7 does real work: when the token refuses the
    transfer, [claim] reverts after it has set the claimed flag, and the
    transaction discards that write. *)
Lemma claim_rollback_example :
  (exists w1,
     claim (mkEnv 7 11) 1 (set_token ∅ w_resolved) = Revert TransferFailed w1 /\
     claimed_at w1 1 7 = true) /\
  claimed_at (set_token ∅ w_resolved) 1 7 = false /\
  transact (mkEnv 7 11) (Claim 1) (set_token ∅ w_resolved) =
    (set_token ∅ w_resolved, Failed TransferFailed).
Proof.
  split; [|split; vm_compute; reflexivity].
  eexists. split; vm_compute; reflexivity.
Qed.

(** C8 on the example: the bets accepted on market 1 are 100, 600 and 300,
    and its pools hold 700 and 300. *)
Lemma pools_account_for_bets_example :
  accepted 1 history w_fresh = 1000 /\
  yesPool (market_at w_resolved 1) = 700 /\
  noPool (market_at w_resolved 1) = 300.
Proof. repeat split; vm_compute; reflexivity. Qed.

(** C9 as stated fails on an id that no market has: the call returns the
    zero values and does not fail. *)
Lemma getMarket_absent_counterexample :
  reachable w_fresh /\
  ~ exists_market w_fresh 5 /\
  call (getMarket 5) w_fresh = inr (EmptyString, 0, false, false, 0, 0) /\
  forall e, call (getMarket 5) w_fresh <> inl e.
Proof.
  split; [apply (reachable_example [])|].
  split; [unfold exists_market; vm_compute; intros [_ H]; apply H; reflexivity|].
  split; [reflexivity|]. intros e. discriminate.
Qed.

(** C9 on the example: market 1 exists and its snapshot has the deadline
    it was created with. *)
Lemma getMarket_total_witness :
  reachable w_resolved /\
  exists_market w_resolved 1 /\
  call (getMarket 1) w_resolved = inr ("q"%string, 10, true, true, 700, 300) /\
  deadline (market_at w_resolved 1) <> 0.
Proof.
  assert (Hex : exists_market w_resolved 1)
    by (unfold exists_market; vm_compute; split; discriminate).
  split; [apply reachable_example|]. split; [exact Hex|].
  destruct (getMarket_total 1 w_resolved) as (Hg & Hd & _).
  split; [unfold call; rewrite Hg; vm_compute; reflexivity|].
  exact (Hd (reachable_example _) Hex).
Defined.

(** C10 on the example: everyone staked on no, the market resolved to
    yes; the staker's claim fails [NoWinnings], also after a later bet
    attempt, and the pool of 300 stays. *)
Lemma no_winner_no_claim_witness :
  reachable w_lost /\
  resolved (market_at w_lost 1) = true /\
  winningPool (market_at w_lost 1) = 0 /\
  totalPool (market_at w_lost 1) = 300 /\
  call (calculatePayout 1 8) w_lost = inr 0 /\
  market_at (run [(mkEnv 7 11, PlaceBet 1 5 true)] w_lost) 1 =
    market_at w_lost 1 /\
  transact (mkEnv 8 12) (Claim 1) (run [(mkEnv 7 11, PlaceBet 1 5 true)] w_lost)
  = (run [(mkEnv 7 11, PlaceBet 1 5 true)] w_lost, Failed NoWinnings).
Proof.
  assert (Hr : resolved (market_at w_lost 1) = true)
    by (vm_compute; reflexivity).
  assert (Hp : winningPool (market_at w_lost 1) = 0)
    by (vm_compute; reflexivity).
  split; [apply reachable_example|]. split; [exact Hr|]. split; [exact Hp|].
  split; [vm_compute; reflexivity|].
  destruct (no_winner_no_claim w_lost 1 (reachable_example _) Hr Hp)
    as (Hz & H).
  split; [apply Hz|].
  exact (H [(mkEnv 7 11, PlaceBet 1 5 true)] (mkEnv 8 12)).
Defined.

(** ** Further properties on the example runs *)

(** The odds of the example market are 70 to 30. *)
Lemma getOdds_sums_to_100_witness :
  call (getOdds 1) w_resolved = inr (70, 30) /\
  70 + 30 = 100 /\
  call (getOdds 5) w_resolved = inr (50, 50).
Proof.
  assert (H : call (getOdds 1) w_resolved = inr (70, 30))
    by (vm_compute; reflexivity).
  destruct (getOdds_sums_to_100 1 w_resolved) as (H1 & _).
  destruct (getOdds_sums_to_100 5 w_resolved) as (_ & _ & _ & H4).
  split; [exact H|]. split; [exact (proj1 (H1 70 30 H))|].
  apply H4; [apply reachable_example|].
  unfold exists_market. vm_compute. intros [_ Hle]. apply Hle. reflexivity.
Defined.

(** The owner withdraws the fee of 2 kept on the claim of account 7; a
    second withdrawal fails. *)
Lemma withdrawFees_drains_witness :
  transact (mkEnv 1 20) (WithdrawFees 50) w_claimed = (w_withdrawn, Success) /\
  accumulatedFees w_claimed = 2 /\
  safeTransfer 99 50 2 (token w_claimed) = Some (token w_withdrawn) /\
  accumulatedFees w_withdrawn = 0 /\
  transact (mkEnv 1 21) (WithdrawFees 50) w_withdrawn =
    (w_withdrawn, Failed NoWinnings).
Proof.
  assert (Hs : transact (mkEnv 1 20) (WithdrawFees 50) w_claimed
               = (w_withdrawn, Success)) by (vm_compute; reflexivity).
  assert (Hf : accumulatedFees w_claimed = 2) by (vm_compute; reflexivity).
  destruct (withdrawFees_drains (mkEnv 1 20) 50 w_claimed) as (_ & _ & H).
  destruct (H w_withdrawn Hs)
    as (_ & _ & Ht & Hz & _ & _ & _ & _ & _ & _ & Hagain).
  specialize (Hagain (mkEnv 1 21) 50).
  assert (Hif : (msg_sender (mkEnv 1 21) =? owner w_withdrawn) = true)
    by (vm_compute; reflexivity).
  rewrite Hif in Hagain. rewrite Hf in Ht.
  split; [exact Hs|]. split; [exact Hf|]. split; [exact Ht|].
  split; [exact Hz|exact Hagain].
Defined.

(** The owner may set the fee to the cap of 1000 bps but not above it. *)
Lemma setFee_capped_witness :
  transact (mkEnv 1 20) (SetFee 1001) w_fresh =
    (w_fresh, Failed (RequireFailed "Fee too high")) /\
  snd (transact (mkEnv 1 20) (SetFee 1000) w_fresh) = Success /\
  platformFeeBps (fst (transact (mkEnv 1 20) (SetFee 1000) w_fresh)) = 1000 /\
  transact (mkEnv 7 20) (SetFee 0) w_fresh = (w_fresh, Failed Unauthorized).
Proof.
  destruct (setFee_capped (mkEnv 1 20) 1001 w_fresh) as (_ & H1 & _).
  destruct (setFee_capped (mkEnv 1 20) 1000 w_fresh) as (_ & _ & H2 & _).
  destruct (setFee_capped (mkEnv 7 20) 0 w_fresh) as (H3 & _).
  split; [apply H1; [reflexivity|vm_compute; reflexivity]|].
  destruct H2 as (Hs & Hf & _); [reflexivity|vm_compute; discriminate|].
  split; [exact Hs|]. split; [exact Hf|].
  apply H3. vm_compute. discriminate.
Defined.

(** On the example claim the gross payout 142 is split into 140 for the
    claimant and 2 of fees. *)
Lemma claim_keeps_nine_tenths_witness :
  reachable w_resolved /\
  transact (mkEnv 7 11) (Claim 1) w_resolved = (w_claimed, Success) /\
  exists p net,
    call (calculatePayout 1 7) w_resolved = inr p /\
    safeTransfer 99 7 net (token w_resolved) = Some (token w_claimed) /\
    net + (accumulatedFees w_claimed - accumulatedFees w_resolved) = p /\
    p - p / 10 <= net.
Proof.
  assert (Hs : transact (mkEnv 7 11) (Claim 1) w_resolved = (w_claimed, Success))
    by (vm_compute; reflexivity).
  split; [apply reachable_example|]. split; [exact Hs|].
  destruct (claim_keeps_nine_tenths (mkEnv 7 11) 1 w_resolved w_claimed
              (reachable_example history) Hs)
    as (p & net & Hp & Ht & Hsum & _ & Hlo & _).
  exists p, net. repeat split; assumption.
Defined.

(** The quote for account 7 before its claim is the 140 it is paid. *)
Lemma calculatePayoutAfterFee_is_claimed_witness :
  transact (mkEnv 7 11) (Claim 1) w_resolved = (w_claimed, Success) /\
  exists net,
    call (calculatePayoutAfterFee 1 7) w_resolved = inr net /\
    safeTransfer 99 7 net (token w_resolved) = Some (token w_claimed).
Proof.
  assert (Hs : transact (mkEnv 7 11) (Claim 1) w_resolved = (w_claimed, Success))
    by (vm_compute; reflexivity).
  split; [exact Hs|].
  destruct (calculatePayoutAfterFee_is_claimed (mkEnv 7 11) 1 w_resolved)
    as (H & _).
  destruct (H w_claimed Hs) as (net & Hq & Ht & _).
  exists net. split; assumption.
Defined.

(** With limits set to a minimum of 10 and a maximum of 5, no bet gets
    through. *)
Lemma setBetLimits_unchecked_witness :
  transact (mkEnv 1 1) (SetBetLimits 10 5) w_created =
    (set_betLimits 10 5 w_created, Success) /\
  snd (transact (mkEnv 7 2) (PlaceBet 1 7 true) (set_betLimits 10 5 w_created))
    <> Success.
Proof.
  destruct (setBetLimits_unchecked (mkEnv 1 1) 10 5 w_created) as (_ & H & _).
  destruct (setBetLimits_unchecked (mkEnv 1 1) 10 5
              (set_betLimits 10 5 w_created)) as (_ & _ & H').
  split; [apply H; reflexivity|].
  apply H'; reflexivity.
Defined.

(** The first market of a fresh contract gets id 1. *)
Lemma createMarket_sequential_witness :
  exists w',
    createMarket (mkEnv 5 0) "q" 10 w_fresh = Ok 1 w' /\
    marketCount w' = 1 /\
    market_at w' 1 = mkMarket "q" 10 false false 0 0.
Proof.
  destruct (createMarket_sequential (mkEnv 5 0) "q"%string 10 w_fresh)
    as (H & _).
  destruct H as (w' & Hc & Hn & Hm & _);
    [reflexivity|vm_compute; reflexivity|].
  exists w'. repeat split; assumption.
Defined.

(** The question and deadline of market 1 survive its bets, its resolution
    and a claim. *)
Lemma market_question_and_deadline_fixed_witness :
  reachable w_created /\
  exists_market w_created 1 /\
  question (market_at (run [(mkEnv 7 1, PlaceBet 1 100 true);
                            (mkEnv 1 10, ResolveMarket 1 true);
                            (mkEnv 7 11, Claim 1)] w_created) 1)
    = question (market_at w_created 1) /\
  deadline (market_at (run [(mkEnv 7 1, PlaceBet 1 100 true);
                            (mkEnv 1 10, ResolveMarket 1 true);
                            (mkEnv 7 11, Claim 1)] w_created) 1)
    = deadline (market_at w_created 1).
Proof.
  assert (Hex : exists_market w_created 1)
    by (unfold exists_market; vm_compute; split; discriminate).
  split; [apply reachable_example|]. split; [exact Hex|].
  destruct (market_question_and_deadline_fixed w_created 1
              [(mkEnv 7 1, PlaceBet 1 100 true);
               (mkEnv 1 10, ResolveMarket 1 true);
               (mkEnv 7 11, Claim 1)] (reachable_example _) Hex)
    as (_ & Hq & Hd & _).
  split; assumption.
Defined.

(** Market 5 does not exist on the example contract. *)
Lemma unknown_market_rejected_witness :
  reachable w_resolved /\
  ~ exists_market w_resolved 5 /\
  transact (mkEnv 7 1) (PlaceBet 5 100 true) w_resolved =
    (w_resolved, Failed MarketDoesNotExist) /\
  transact (mkEnv 7 1) (Claim 5) w_resolved =
    (w_resolved, Failed MarketDoesNotExist).
Proof.
  assert (Hn : ~ exists_market w_resolved 5).
  { unfold exists_market. vm_compute. intros [_ Hle]. apply Hle. reflexivity. }
  split; [apply reachable_example|]. split; [exact Hn|].
  destruct (unknown_market_rejected w_resolved 5 (reachable_example _) Hn)
    as (Hb & Hc & _).
  split; [apply Hb|apply Hc].
Defined.

(** Account 7 holds 1000 units and cannot bet 5000: the pull fails. *)
Lemma placeBet_rejections_witness :
  reachable w_created /\
  exists_market w_created 1 /\
  transact (mkEnv 7 1) (PlaceBet 1 0 true) w_created =
    (w_created, Failed BetTooSmall) /\
  transact (mkEnv 7 1) (PlaceBet 1 5000 true) w_created =
    (w_created, Failed TransferFailed).
Proof.
  assert (Hex : exists_market w_created 1)
    by (unfold exists_market; vm_compute; split; discriminate).
  split; [apply reachable_example|]. split; [exact Hex|].
  destruct (placeBet_rejections (mkEnv 7 1) 1 0 true w_created
              (reachable_example _) Hex) as (_ & H0 & _).
  destruct (placeBet_rejections (mkEnv 7 1) 1 5000 true w_created
              (reachable_example _) Hex) as (_ & H1 & _).
  split.
  - apply H0; vm_compute; reflexivity.
  - apply H1; try (vm_compute; reflexivity).
    + vm_compute. discriminate.
    + left. reflexivity.
Defined.

(** Account 7 staked 100 on the winning side and is quoted 142. *)
Lemma payout_at_least_stake_witness :
  reachable w_resolved /\
  resolved (market_at w_resolved 1) = true /\
  call (calculatePayout 1 7) w_resolved = inr 142 /\
  winningStake w_resolved 1 7 <= 142.
Proof.
  assert (Hr : resolved (market_at w_resolved 1) = true)
    by (vm_compute; reflexivity).
  assert (Hp : call (calculatePayout 1 7) w_resolved = inr 142)
    by (vm_compute; reflexivity).
  split; [apply reachable_example|]. split; [exact Hr|]. split; [exact Hp|].
  exact (proj1 (payout_at_least_stake w_resolved 1 7 142
                  (reachable_example _) Hr Hp)).
Defined.

(** The call data for market 255, and for the largest id the client can
    count to. *)
Lemma encodeGetMarket_word_witness :
  String.length (encodeGetMarket (mkSafeInteger 255 eq_refl)) = 74%nat /\
  encodeGetMarket (mkSafeInteger 255 eq_refl) =
  "0x3a057ac100000000000000000000000000000000000000000000000000000000000000ff"
  /\
  encodeGetMarket (mkSafeInteger MAX_SAFE_INTEGER eq_refl) =
  "0x3a057ac1000000000000000000000000000000000000000000000000001fffffffffffff"
  /\
  substring 10 50 (encodeGetMarket (mkSafeInteger MAX_SAFE_INTEGER eq_refl))
  = zeroFill 50.
Proof.
  destruct (encodeGetMarket_word (mkSafeInteger 255 eq_refl))
    as (Hl & _).
  destruct (encodeGetMarket_word (mkSafeInteger MAX_SAFE_INTEGER eq_refl))
    as (_ & Hz & _).
  split; [exact Hl|]. split; [vm_compute; reflexivity|].
  split; [vm_compute; reflexivity|exact Hz].
Defined.

(** The claims of the example run stay within the pool of 1000. *)
Lemma claims_never_exceed_pool_example :
  paid 1 (history ++ [(mkEnv 7 11, Claim 1); (mkEnv 8 12, Claim 1)]) w_fresh
  = 999.
Proof. vm_compute. reflexivity. Qed.

End Examples.
